(** * Verification of the vestaboard-local rendering engine and scheduler

    Shallow embedding of [src/characters.py] (symbol codec, word wrap,
    board rendering) and of [src/scheduler.py] (primary trigger loop and
    flight watcher).

    A Python [str] is a sequence of Unicode code points; it is modelled as
    [list Z].  Python's [str.upper] (full case mapping) and the case-folding
    the [re] module uses for [re.IGNORECASE] are modelled on ASCII, on the
    Latin-1 block and on the few code points with special case behaviour
    that the development uses ([ß], [ı], [ſ], [µ], [ÿ], [İ], the Kelvin
    sign); every other code point is left unchanged by both. *)

From Stdlib Require Import ZArith Lia Bool.
From stdpp Require Import base list gmap strings pretty.

Open Scope Z_scope.

(** ** Python strings *)

Definition pystr := list Z.

(** ASCII literal to code points. *)
Fixpoint s2l (s : string) : pystr :=
  match s with
  | EmptyString => []
  | String a s' => Z.of_N (Ascii.N_of_ascii a) :: s2l s'
  end.

(** [str.upper] for one code point (Python's full upper-case mapping). *)
Definition py_upper_char (c : Z) : pystr :=
  if (97 <=? c) && (c <=? 122) then [c - 32]
  else if c =? 181 then [924]                     (* µ -> Μ *)
  else if c =? 223 then [83; 83]                  (* ß -> SS *)
  else if (224 <=? c) && (c <=? 254) && negb (c =? 247) then [c - 32]
  else if c =? 255 then [376]                     (* ÿ -> Ÿ *)
  else if c =? 305 then [73]                      (* ı -> I *)
  else if c =? 383 then [83]                      (* ſ -> S *)
  else [c].

(** [str.upper]. *)
Definition py_upper (s : pystr) : pystr := flat_map py_upper_char s.

(** Simple lower-case mapping, as used by [re] under [IGNORECASE]. *)
Definition py_lower (c : Z) : Z :=
  if (65 <=? c) && (c <=? 90) then c + 32
  else if (192 <=? c) && (c <=? 222) && negb (c =? 215) then c + 32
  else if c =? 304 then 105                       (* İ -> i *)
  else if c =? 8490 then 107                      (* Kelvin sign -> k *)
  else c.

(** The case class [re] compares under [IGNORECASE]: the lower-case
    mapping, plus the equivalences i/ı and s/ſ of [sre_compile]. *)
Definition sre_fold (c : Z) : Z :=
  let l := py_lower c in
  if l =? 305 then 105 else if l =? 383 then 115 else l.

Definition ci_eq (c p : Z) : bool := sre_fold c =? sre_fold p.

(** ** Symbol codec: [CHAR_CODES], [SPECIAL_CODES] *)

Definition CHAR_CODES : list (Z * Z) :=
  [(32, 0);
   (65, 1); (66, 2); (67, 3); (68, 4); (69, 5); (70, 6); (71, 7); (72, 8);
   (73, 9); (74, 10); (75, 11); (76, 12); (77, 13); (78, 14); (79, 15);
   (80, 16); (81, 17); (82, 18); (83, 19); (84, 20); (85, 21); (86, 22);
   (87, 23); (88, 24); (89, 25); (90, 26);
   (49, 27); (50, 28); (51, 29); (52, 30); (53, 31); (54, 32); (55, 33);
   (56, 34); (57, 35); (48, 36);
   (33, 37); (64, 38); (35, 39); (36, 40); (40, 41); (41, 42);
   (45, 44); (43, 46); (38, 47); (61, 48); (59, 49); (58, 50);
   (39, 52); (34, 53); (37, 54); (44, 55); (46, 56);
   (47, 59); (63, 60); (176, 62);
   (9608, 71)].

(** [SPECIAL_CODES], in the dict's insertion order (which is also the
    order of the alternatives of [SPECIAL_CODE_PATTERN]). *)
Definition SPECIAL_CODES : list (pystr * Z) :=
  [(s2l "RED", 63); (s2l "ORANGE", 64); (s2l "YELLOW", 65);
   (s2l "GREEN", 66); (s2l "BLUE", 67); (s2l "VIOLET", 68);
   (s2l "WHITE", 69); (s2l "BLACK", 70); (s2l "BLOCK", 71)].

(** Dict lookup [d[k]]: [None] is a [KeyError]. *)
Fixpoint dict_get {K} `{EqDecision K} (k : K) (d : list (K * Z)) : option Z :=
  match d with
  | [] => None
  | (k', v) :: d' => if decide (k = k') then Some v else dict_get k d'
  end.

(** ** [SPECIAL_CODE_PATTERN] = [\{(RED|ORANGE|...|BLOCK)\}], IGNORECASE *)

(** One literal alternative, matched case-insensitively: the consumed
    text (the group) and the rest. *)
Fixpoint match_literal (name : pystr) (s : pystr) : option (pystr * pystr) :=
  match name, s with
  | [], _ => Some ([], s)
  | p :: name', c :: s' =>
      if ci_eq c p then
        match match_literal name' s' with
        | Some (g, r) => Some (c :: g, r)
        | None => None
        end
      else None
  | _ :: _, [] => None
  end.

(** [\{NAME\}] at the start of [s]: group 1 and the rest. *)
Definition match_alt (name : pystr) (s : pystr) : option (pystr * pystr) :=
  match s with
  | c :: s' =>
      if c =? 123 then
        match match_literal name s' with
        | Some (g, c' :: r) => if c' =? 125 then Some (g, r) else None
        | _ => None
        end
      else None
  | [] => None
  end.

(** The alternation is tried in order; the first alternative that lets
    the whole pattern match wins. *)
Fixpoint first_alt (alts : list pystr) (s : pystr) : option (pystr * pystr) :=
  match alts with
  | [] => None
  | n :: alts' =>
      match match_alt n s with
      | Some r => Some r
      | None => first_alt alts' s
      end
  end.

(** [SPECIAL_CODE_PATTERN.match(text, i)], with [s] the text from [i] on. *)
Definition pattern_match (s : pystr) : option (pystr * pystr) :=
  first_alt (map fst SPECIAL_CODES) s.

(** ** [text_to_codes] *)

Definition char_code (c : Z) : Z :=
  match dict_get c CHAR_CODES with Some v => v | None => 0 end.

(** The [while i < len(text)] loop, [s] being [text[i:]]; [None] is the
    [KeyError] raised by [SPECIAL_CODES[code_name]]. *)
Fixpoint codes_loop (fuel : nat) (s : pystr) : option (list Z) :=
  match fuel with
  | O => Some []
  | S fuel' =>
      match s with
      | [] => Some []
      | c :: s' =>
          let regular := (fun cs => char_code c :: cs) <$> codes_loop fuel' s' in
          if c =? 123 then
            match pattern_match s with
            | Some (g, rest) =>
                match dict_get (py_upper g) SPECIAL_CODES with
                | Some code => (fun cs => code :: cs) <$> codes_loop fuel' rest
                | None => None
                end
            | None => regular
            end
          else regular
      end
  end.

Definition text_to_codes (text : pystr) : option (list Z) :=
  let t := py_upper text in codes_loop (length t) t.

(** ** [get_display_length] *)

(** [findall] and [sub] scan the text in the same way: from left to
    right, a match at the current position is taken whole, otherwise the
    character is kept and the scan moves one position on. *)
Inductive piece := Lit (c : Z) | Tok (g : pystr).

Fixpoint scan (fuel : nat) (s : pystr) : list piece :=
  match fuel with
  | O => []
  | S fuel' =>
      match s with
      | [] => []
      | c :: s' =>
          match pattern_match s with
          | Some (g, rest) => Tok g :: scan fuel' rest
          | None => Lit c :: scan fuel' s'
          end
      end
  end.

Definition findall (s : pystr) : list pystr :=
  flat_map (fun p => match p with Tok g => [g] | Lit _ => [] end) (scan (length s) s).

Definition sub_empty (s : pystr) : pystr :=
  flat_map (fun p => match p with Lit c => [c] | Tok _ => [] end) (scan (length s) s).

Definition get_display_length (text : pystr) : nat :=
  length (sub_empty text) + length (findall text).

Example codes_red_hi : text_to_codes (s2l "{red}Hi") = Some [63; 8; 9].
Proof. reflexivity. Qed.
Example dl_red_hi : get_display_length (s2l "{RED}HI") = 3%nat.
Proof. reflexivity. Qed.
Example codes_brace : text_to_codes (s2l "{PINK}") = Some [0; 16; 9; 14; 11; 0].
Proof. reflexivity. Qed.
Example codes_kelvin : text_to_codes [123; 66; 76; 65; 67; 8490; 125] = None.
Proof. reflexivity. Qed.

(** ** [CODE_TO_CHAR] *)

(** Dict assignment [d[k] = v]: an existing key keeps its position, a new
    key is appended. *)
Fixpoint dict_set {K} `{EqDecision K} (k : K) (v : Z) (d : list (K * Z)) : list (K * Z) :=
  match d with
  | [] => [(k, v)]
  | (k', v') :: d' => if decide (k = k') then (k, v) :: d' else (k', v') :: dict_set k v d'
  end.

(** [{v: k for k, v in CHAR_CODES.items()}]. *)
Definition CODE_TO_CHAR : list (Z * Z) :=
  fold_left (fun acc '(k, v) => dict_set v k acc) CHAR_CODES [].

(** ** [create_board] *)

Definition ROWS : nat := 6.
Definition COLS : nat := 22.

Abbreviation board := (list (list Z)).

(** [[[0] * COLS for _ in range(ROWS)]]. *)
Definition empty_board : board := replicate ROWS (replicate COLS 0).

(** [for col_idx, code in enumerate(codes): if start_col + col_idx < COLS:
    board[row_idx][start_col + col_idx] = code]. *)
Fixpoint place_codes (row start col : nat) (codes : list Z) (b : board) : board :=
  match codes with
  | [] => b
  | code :: cs =>
      let b' := if bool_decide (start + col < COLS)%nat
                then alter (fun r => <[(start + col)%nat := code]> r) row b
                else b in
      place_codes row start (S col) cs b'
  end.

Definition start_col (center : bool) (codes : list Z) : nat :=
  if center then ((COLS - length codes) / 2)%nat else 0%nat.

(** The [for row_idx, line in enumerate(lines[:ROWS])] loop. *)
Fixpoint create_rows (row : nat) (lines : list pystr) (center : bool) (b : board)
  : option board :=
  match lines with
  | [] => Some b
  | line :: ls =>
      match text_to_codes line with
      | None => None
      | Some codes =>
          let codes := take COLS codes in
          create_rows (S row) ls center
            (place_codes row (start_col center codes) 0 codes b)
      end
  end.

Definition create_board (lines : list pystr) (center : bool) : option board :=
  create_rows 0 (take ROWS lines) center empty_board.

(** ** [wrap_text] *)

(** [str.isspace], the separators of [str.split()]. *)
Definition py_isspace (c : Z) : bool :=
  ((9 <=? c) && (c <=? 13)) || ((28 <=? c) && (c <=? 32)) || (c =? 133) ||
  (c =? 160) || (c =? 5760) || ((8192 <=? c) && (c <=? 8202)) ||
  (c =? 8232) || (c =? 8233) || (c =? 8239) || (c =? 8287) || (c =? 12288).

(** [str.split()] with no argument; [cur] is the word being read. *)
Fixpoint split_aux (cur : pystr) (s : pystr) : list pystr :=
  match s with
  | [] => match cur with [] => [] | _ => [cur] end
  | c :: s' =>
      if py_isspace c
      then match cur with [] => [] | _ => [cur] end ++ split_aux [] s'
      else split_aux (cur ++ [c]) s'
  end.

Definition py_split (s : pystr) : list pystr := split_aux [] s.

(** [" ".join(ws)]. *)
Fixpoint join_space (ws : list pystr) : pystr :=
  match ws with
  | [] => []
  | [w] => w
  | w :: ws' => w ++ 32 :: join_space ws'
  end.

Record wrap_state := WrapState {
  lines : list pystr;
  current_line : list pystr;
  current_length : Z
}.

(** One iteration of [for word in words]. *)
Definition wrap_step (width : Z) (st : wrap_state) (word : pystr) : wrap_state :=
  let word_length := Z.of_nat (get_display_length word) in
  let sep := match current_line st with [] => 0 | _ => 1 end in
  if current_length st + word_length + sep <=? width then
    let cl := current_line st ++ [word] in
    WrapState (lines st) cl
      (current_length st + word_length + (if (1 <? length cl)%nat then 1 else 0))
  else
    WrapState
      (match current_line st with
       | [] => lines st
       | _ => lines st ++ [join_space (current_line st)]
       end)
      [word] word_length.

Definition wrap_text (text : pystr) (width : Z) : list pystr :=
  let st := fold_left (wrap_step width) (py_split text) (WrapState [] [] 0) in
  match current_line st with
  | [] => lines st
  | _ => lines st ++ [join_space (current_line st)]
  end.

(** ** [format_message] *)

Definition format_message (text : pystr) (center : bool) : option board :=
  let ls := take ROWS (wrap_text text (Z.of_nat COLS)) in
  let ls := if center && bool_decide (length ls < ROWS)%nat
            then replicate ((ROWS - length ls) / 2) [] ++ ls
            else ls in
  create_board ls center.

Example wrap_abc : wrap_text (s2l "A B C") 22 = [s2l "A B C"].
Proof. reflexivity. Qed.
Example wrap_long : wrap_text (s2l "HI ABCDEFGH {RED}X Y") 4 =
  [s2l "HI"; s2l "ABCDEFGH"; s2l "{RED}X Y"].
Proof. reflexivity. Qed.
Example board_hi : create_board [s2l "HI"] true =
  Some ((replicate 10 0 ++ [8; 9] ++ replicate 10 0) :: replicate 5 (replicate 22 0)).
Proof. reflexivity. Qed.

(** * Display client ([src/client.py]) *)

(** The exceptions the client lets escape: the [KeyError] of the codec
    and the [ValueError] of the board check. *)
Inductive send_error := KeyError | ValueError (msg : string).

(** [VestaboardClient.send_board]; [post b] is the HTTP POST of the board,
    [True] on success and [False] on a [RequestException]. *)
Definition client_send_board (post : board -> bool) (b : board) : send_error + bool :=
  if negb (length b =? ROWS)%nat then
    inl (ValueError ("Board must have 6 rows, got " +:+ pretty (length b)))
  else if existsb (fun row => negb (length row =? COLS)%nat) b then
    inl (ValueError "Each row must have 22 columns")
  else inr (post b).

(** [VestaboardClient.send_message]. *)
Definition client_send_message (post : board -> bool) (text : pystr) (center : bool)
  : send_error + bool :=
  match format_message text center with
  | None => inl KeyError
  | Some b => client_send_board post b
  end.

(** [VestaboardClient.send_lines]. *)
Definition client_send_lines (post : board -> bool) (ls : list pystr) (center : bool)
  : send_error + bool :=
  match create_board ls center with
  | None => inl KeyError
  | Some b => client_send_board post b
  end.

(** [VestaboardClient.clear]. *)
Definition client_clear (post : board -> bool) : send_error + bool :=
  client_send_board post (replicate ROWS (replicate COLS 0)).

(** * Board formatters ([src/fetchers.py]) *)

(** [s[:k]]: a negative [k] counts from the end. *)
Definition py_slice_to (s : pystr) (k : Z) : pystr :=
  if 0 <=? k then take (Z.to_nat k) s
  else take (Z.to_nat (Z.of_nat (length s) + k)) s.

(** [str(n)] of a Python [int]. *)
Definition py_str_int (n : Z) : pystr := s2l (pretty n).

(** The [day_str] of [CountdownFetcher.format_for_board]. *)
Definition countdown_day_str (days : Z) : pystr :=
  if days =? 0 then s2l "TODAY!"
  else if days =? 1 then s2l "1 DAY"
  else py_str_int days ++ s2l " DAYS".

(** One countdown line; [" " * padding] is empty for [padding <= 0]. *)
Definition countdown_line (name : pystr) (days : Z) : pystr :=
  let day_str := countdown_day_str days in
  let max_name_len := 22 - Z.of_nat (length day_str) - 1 in
  let truncated_name := py_upper (py_slice_to name max_name_len) in
  let padding := 22 - Z.of_nat (length truncated_name) - Z.of_nat (length day_str) in
  truncated_name ++ replicate (Z.to_nat padding) 32 ++ day_str.

(** [CountdownFetcher.format_for_board(countdowns)] for a given list of
    [(name, days_remaining)]. *)
Definition countdown_format_for_board (countdowns : list (pystr * Z)) : list pystr :=
  match countdowns with
  | [] => [s2l "COUNTDOWNS"; []; s2l "NO ACTIVE"; s2l "COUNTDOWNS"; [];
           s2l "ADD ONE IN THE APP"]
  | _ => s2l "COUNTDOWNS" :: [] ::
         map (fun '(name, days) => countdown_line name days) (take 4 countdowns)
  end.

(** [NewsFetcher.format_for_board(headline)], [title] being
    [headline.title]. *)
Definition news_format_for_board (title : pystr) : list pystr :=
  s2l "NEWS" :: [] :: take 4 (wrap_text (py_upper title) 22).

(** * Scheduler ([src/scheduler.py]) *)

(** A value or a raised exception (its message, [str(e)]). *)
Inductive exc (A : Type) := Ok (a : A) | Exn (e : string).
Arguments Ok {A} a.
Arguments Exn {A} e.

Definition exc_bind {A B} (m : exc A) (k : A -> exc B) : exc B :=
  match m with Ok a => k a | Exn e => Exn e end.


(** Times are seconds; [datetime(2000, 1, 1)]. *)
Definition epoch_sentinel : Z := 946684800.

Record ScheduledMessage := {
  msg_id : nat;
  msg_name : string;
  message_type : string;
  content : option string;
  cron_expression : string;
  enabled : bool;
  last_run : option Z
}.

Record MessageLog := {
  log_type : string;
  log_content : string;
  log_success : bool
}.

(** The two tables the scheduler uses, [scheduled_messages] in the
    order of [ORDER BY name], and [message_log]. *)
Record Storage := {
  scheduled_messages : list ScheduledMessage;
  message_log : list MessageLog
}.

Definition get_scheduled_messages_enabled (st : Storage) : list ScheduledMessage :=
  filter (fun m => enabled m = true) (scheduled_messages st).

Definition log_message (st : Storage) (ty c : string) (success : bool) : Storage :=
  {| scheduled_messages := scheduled_messages st;
     message_log := message_log st ++ [{| log_type := ty; log_content := c; log_success := success |}] |}.

Definition set_last_run (t : Z) (m : ScheduledMessage) : ScheduledMessage :=
  {| msg_id := msg_id m; msg_name := msg_name m; message_type := message_type m;
     content := content m; cron_expression := cron_expression m;
     enabled := enabled m; last_run := Some t |}.

(** [UPDATE scheduled_messages SET last_run = ? WHERE id = ?]. *)
Definition update_last_run (st : Storage) (id : nat) (t : Z) : Storage :=
  {| scheduled_messages :=
       map (fun m => if decide (msg_id m = id) then set_last_run t m else m)
           (scheduled_messages st);
     message_log := message_log st |}.

(** ["\n".join(lines)]. *)
Fixpoint join_nl (ls : list string) : string :=
  match ls with
  | [] => EmptyString
  | [l] => l
  | l :: ls' => l ++ String (Ascii.ascii_of_nat 10) (join_nl ls')
  end.

Section Scheduler.

(** The collaborators: the display client ([send_message], [send_lines]),
    the providers, and croniter.  A provider of weather, stocks or news
    yields [None] when it has nothing ([if weather:] fails); the calendar,
    countdown and flight providers always yield lines.  [cron_next e t] is
    [croniter(e, t).get_next(datetime)], [None] when croniter raises. *)
Variable send_message : string -> exc bool.
Variable send_lines : list string -> exc bool.
Variable provider_optional : string -> exc (option (list string)).
Variable provider_lines : string -> exc (list string).
Variable cron_next : string -> Z -> option Z.

(** The body of the [try] in [execute_message]: its [content] and
    [success], or the exception it raises. *)
Definition execute_body (msg : ScheduledMessage) : exc (string * bool) :=
  let ty := message_type msg in
  if String.eqb ty "text" then
    let c := match content msg with Some c => c | None => EmptyString end in
    exc_bind (send_message c) (fun success => Ok (c, success))
  else if String.eqb ty "weather" || String.eqb ty "stocks" || String.eqb ty "news" then
    exc_bind (provider_optional ty) (fun data =>
    match data with
    | None => Ok (EmptyString, false)
    | Some lines =>
        exc_bind (send_lines lines) (fun success => Ok (join_nl lines, success))
    end)
  else if String.eqb ty "calendar" || String.eqb ty "countdowns" || String.eqb ty "flights" then
    exc_bind (provider_lines ty) (fun lines =>
    exc_bind (send_lines lines) (fun success => Ok (join_nl lines, success)))
  else Ok (EmptyString, false).

(** [execute_message]; [now] is the [datetime.now()] of [update_last_run]. *)
Definition execute_message (now : Z) (st : Storage) (msg : ScheduledMessage)
  : Storage * bool :=
  let '(c, success) :=
    match execute_body msg with
    | Ok r => r
    | Exn e => (e, false)
    end in
  let st1 := log_message st (message_type msg) c success in
  let st2 := if success then update_last_run st1 (msg_id msg) now else st1 in
  (st2, success).

(** What the pass did with one trigger. *)
Inductive check_outcome :=
| CheckError                        (* croniter raised; caught and printed *)
| NotDue (next : Z)
| Ran (next : Z) (success : bool).

Definition anchor (msg : ScheduledMessage) : Z :=
  match last_run msg with Some t => t | None => epoch_sentinel end.

(** The body of [for msg in messages: try: ... except Exception: ...]. *)
Definition check_one (now updated : Z) (acc : Storage * list (nat * check_outcome))
    (msg : ScheduledMessage) : Storage * list (nat * check_outcome) :=
  let '(st, trace) := acc in
  match cron_next (cron_expression msg) (anchor msg) with
  | None => (st, trace ++ [(msg_id msg, CheckError)])
  | Some next =>
      if next <=? now then
        let '(st', success) := execute_message updated st msg in
        (st', trace ++ [(msg_id msg, Ran next success)])
      else (st, trace ++ [(msg_id msg, NotDue next)])
  end.

(** [check_and_run_scheduled]: the enabled triggers are read once, then
    checked one by one; [now] is read once for the pass. *)
Definition check_and_run_scheduled (now updated : Z) (st : Storage)
  : Storage * list (nat * check_outcome) :=
  fold_left (check_one now updated) (get_scheduled_messages_enabled st) (st, []).

(** The due test of a stored trigger at [now]. *)
Definition is_due (now : Z) (msg : ScheduledMessage) : bool :=
  match cron_next (cron_expression msg) (anchor msg) with
  | Some next => next <=? now
  | None => false
  end.

(** [run_loop]: one pass per tick, each in its own [try]; [ticks] lists
    the [now] (and update time) of each pass. *)
Fixpoint run_loop (ticks : list (Z * Z)) (st : Storage)
  : Storage * list (list (nat * check_outcome)) :=
  match ticks with
  | [] => (st, [])
  | (now, updated) :: ticks' =>
      let '(st1, trace) := check_and_run_scheduled now updated st in
      let '(st2, traces) := run_loop ticks' st1 in
      (st2, trace :: traces)
  end.

End Scheduler.

(** * Storage operations ([src/storage.py]) *)

(** The [settings] table, [key TEXT PRIMARY KEY]. *)
Definition get_setting (settings : gmap string string) (key : string)
    (default : option string) : option string :=
  match settings !! key with Some v => Some v | None => default end.

(** [INSERT OR REPLACE INTO settings (key, value) VALUES (?, ?)]. *)
Definition set_setting (settings : gmap string string) (key value : string)
  : gmap string string :=
  <[key := value]> settings.

(** [SELECT * FROM scheduled_messages WHERE id = ?], [fetchone]. *)
Definition get_scheduled_message (st : Storage) (id : nat) : option ScheduledMessage :=
  List.find (fun m => Nat.eqb (msg_id m) id) (scheduled_messages st).

(** A new row goes after the rows whose name sorts before or equal to its
    own, keeping [scheduled_messages] in [ORDER BY name] order (names
    compared as bytes, SQLite's [BINARY] collation). *)
Fixpoint insert_by_name (row : ScheduledMessage) (rows : list ScheduledMessage)
  : list ScheduledMessage :=
  match rows with
  | [] => [row]
  | m :: rows' =>
      if String.ltb (msg_name row) (msg_name m) then row :: m :: rows'
      else m :: insert_by_name row rows'
  end.

(** The rowid SQLite gives a row inserted without one: one more than the
    largest rowid in the table, 1 in an empty table. *)
Definition next_rowid (st : Storage) : nat :=
  S (fold_right Nat.max 0%nat (map msg_id (scheduled_messages st))).

(** [save_scheduled_message]: [if msg.id:] ([None] and [0] are falsy) an
    [UPDATE] of the editable columns of the rows with that id, otherwise
    an [INSERT] of a new row ([last_run] NULL); returns the id. *)
Definition save_scheduled_message (st : Storage) (msg : ScheduledMessage) : Storage * nat :=
  if Nat.eqb (msg_id msg) 0 then
    let new_id := next_rowid st in
    let row := {| msg_id := new_id; msg_name := msg_name msg;
                  message_type := message_type msg; content := content msg;
                  cron_expression := cron_expression msg; enabled := enabled msg;
                  last_run := None |} in
    ({| scheduled_messages := insert_by_name row (scheduled_messages st);
        message_log := message_log st |}, new_id)
  else
    let upd m :=
      if Nat.eqb (msg_id m) (msg_id msg) then
        {| msg_id := msg_id m; msg_name := msg_name msg;
           message_type := message_type msg; content := content msg;
           cron_expression := cron_expression msg; enabled := enabled msg;
           last_run := last_run m |}
      else m in
    ({| scheduled_messages := map upd (scheduled_messages st);
        message_log := message_log st |}, msg_id msg).

(** [delete_scheduled_message]: [DELETE ... WHERE id = ?], returning
    [cursor.rowcount > 0]. *)
Definition delete_scheduled_message (st : Storage) (id : nat) : Storage * bool :=
  ({| scheduled_messages := List.filter (fun m => negb (Nat.eqb (msg_id m) id)) (scheduled_messages st);
      message_log := message_log st |},
   existsb (fun m => Nat.eqb (msg_id m) id) (scheduled_messages st)).

(** The five schedules of [add_default_schedules] ([id=None]). *)
Definition default_schedules : list ScheduledMessage :=
  [{| msg_id := 0; msg_name := "Morning Weather"; message_type := "weather";
      content := None; cron_expression := "0 7 * * *"; enabled := true; last_run := None |};
   {| msg_id := 0; msg_name := "Market Open"; message_type := "stocks";
      content := None; cron_expression := "30 9 * * 1-5"; enabled := true; last_run := None |};
   {| msg_id := 0; msg_name := "Daily Calendar"; message_type := "calendar";
      content := None; cron_expression := "0 8 * * *"; enabled := false; last_run := None |};
   {| msg_id := 0; msg_name := "Good Morning"; message_type := "text";
      content := Some "Good Morning!"; cron_expression := "0 6 * * *"; enabled := true;
      last_run := None |};
   {| msg_id := 0; msg_name := "Good Night"; message_type := "text";
      content := Some "Good Night!"; cron_expression := "0 22 * * *"; enabled := true;
      last_run := None |}].

(** [MessageScheduler.add_default_schedules]: nothing when any schedule
    exists, otherwise the five defaults are saved in turn. *)
Definition add_default_schedules (st : Storage) : Storage :=
  match scheduled_messages st with
  | _ :: _ => st
  | [] => fold_left (fun s msg => fst (save_scheduled_message s msg)) default_schedules st
  end.

(** * Flight watcher ([check_active_flights]) *)

(** A tracked flight; [flight_date] is held as its ISO text [str(date)],
    which is how both the [!= today] test and the key use it. *)
Record TrackedFlight := {
  flight_number : string;
  flight_date : string
}.

(** [f"{flight.flight_number}_{flight.flight_date}"]. *)
Definition flight_key (f : TrackedFlight) : string :=
  flight_number f +:+ "_" +:+ flight_date f.

(** A display update the watcher attempted for [key]: [format_for_board]
    then [send_lines], with the send's flag or the exception raised. *)
Inductive flight_event :=
| FlightUpdate (key status : string) (result : exc bool).

(** The watcher's state: [self._last_flight_status], the storage, and the
    updates attempted so far. *)
Record WatchState := {
  last_flight_status : gmap string string;
  watch_storage : Storage;
  watch_events : list flight_event
}.

(** One iteration of [for flight in flights].  Per pass, [fetch n d] is
    [flight_fetcher.fetch] ([None] when it returns [None]; it catches its
    own errors) giving [status.status], and [render f s] is
    [format_for_board] then [send_lines]: the lines and the send's flag,
    or the exception either raises. *)
Definition check_flight (fetch : string -> string -> option string)
    (render : TrackedFlight -> string -> exc (list string * bool))
    (today : string) (ws : WatchState) (flight : TrackedFlight) : WatchState :=
  if negb (String.eqb (flight_date flight) today) then ws else
  match fetch (flight_number flight) (flight_date flight) with
  | None => ws
  | Some status =>
      let key := flight_key flight in
      if bool_decide (last_flight_status ws !! key = Some status) then ws
      else
        match render flight status with
        | Exn e =>
            {| last_flight_status := last_flight_status ws;
               watch_storage := watch_storage ws;
               watch_events := watch_events ws ++ [FlightUpdate key status (Exn e)] |}
        | Ok (lines, success) =>
            {| last_flight_status := <[key := status]> (last_flight_status ws);
               watch_storage := log_message (watch_storage ws) "flight_auto" (join_nl lines) success;
               watch_events := watch_events ws ++ [FlightUpdate key status (Ok success)] |}
        end
  end.

(** [check_active_flights] over the enabled, non-past flights. *)
Definition check_active_flights (fetch : string -> string -> option string)
    (render : TrackedFlight -> string -> exc (list string * bool))
    (today : string) (flights : list TrackedFlight) (ws : WatchState) : WatchState :=
  fold_left (check_flight fetch render today) flights ws.

(** Successive flight-watcher passes, each with the fetch results of its
    own time. *)
Definition watch_passes (fetches : list (string -> string -> option string))
    (render : TrackedFlight -> string -> exc (list string * bool))
    (today : string) (flights : list TrackedFlight) (ws : WatchState) : WatchState :=
  fold_left (fun ws fetch => check_active_flights fetch render today flights ws) fetches ws.

(** A pass over four enabled triggers: a malformed cron expression, a
    weather trigger whose provider raises, a text trigger whose send raises,
    and a text trigger that is sent. *)
Definition demo_trigger (id : nat) (ty c cron : string) : ScheduledMessage :=
  {| msg_id := id; msg_name := ty; message_type := ty; content := Some c;
     cron_expression := cron; enabled := true; last_run := None |}.

Definition demo_storage : Storage :=
  {| scheduled_messages :=
       [demo_trigger 1 "text" "HELLO" "bad";
        demo_trigger 2 "weather" "WX" "0 7 * * *";
        demo_trigger 3 "text" "boom" "0 6 * * *";
        demo_trigger 4 "text" "HELLO" "0 6 * * *"];
     message_log := [] |}.

Definition demo_cron (e : string) (t : Z) : option Z :=
  if String.eqb e "bad" then None else Some (t + 60).

Definition demo_send_message (c : string) : exc bool :=
  if String.eqb c "boom" then Exn "KeyError" else Ok true.

Definition demo_send_lines (ls : list string) : exc bool := Ok true.

Definition demo_provider_optional (ty : string) : exc (option (list string)) :=
  Exn "ConnectionError".

Definition demo_provider_lines (ty : string) : exc (list string) := Ok [ty].

(** ** Rendering: shape and placement of a row *)

Definition board_shape (b : board) : Prop :=
  length b = ROWS /\ Forall (fun r => length r = COLS) b.

(** The writes [place_codes] makes into one row. *)
Fixpoint place_row (start col : nat) (codes : list Z) (r : list Z) : list Z :=
  match codes with
  | [] => r
  | code :: cs =>
      place_row start (S col) cs
        (if bool_decide (start + col < COLS)%nat then <[(start + col)%nat := code]> r else r)
  end.

Lemma place_codes_alter row start col codes b :
  place_codes row start col codes b = alter (place_row start col codes) row b.
Proof.
  revert col b. induction codes as [|code cs IH]; intros col b;
    cbn [place_codes place_row].
  - symmetry. apply list_alter_id. done.
  - rewrite IH. case_bool_decide.
    + rewrite list_alter_alter_eq. done.
    + done.
Qed.

Lemma length_place_row start col codes r :
  length (place_row start col codes r) = length r.
Proof.
  revert col r. induction codes as [|code cs IH]; intros col r; simpl; [done|].
  rewrite IH. case_bool_decide; [apply length_insert|done].
Qed.

Lemma insert_at_length (A B : list Z) x y :
  <[length A := x]> (A ++ y :: B) = A ++ x :: B.
Proof. induction A as [|a A IH]; simpl; [done|]. by rewrite IH. Qed.

(** Writing [codes] from column [length A] into [A ++ B]. *)
Lemma place_row_app start col codes (A B : list Z) :
  length A = (start + col)%nat -> (start + col + length codes <= COLS)%nat ->
  (length codes <= length B)%nat ->
  place_row start col codes (A ++ B) = A ++ codes ++ drop (length codes) B.
Proof.
  revert col A B. induction codes as [|code cs IH]; intros col A B HA Hc HB; simpl.
  - by rewrite drop_0.
  - destruct B as [|y B]; simpl in HB; [lia|].
    rewrite bool_decide_true by (simpl in Hc; lia).
    rewrite <- HA, insert_at_length.
    replace (A ++ code :: B) with ((A ++ [code]) ++ B) by (by rewrite <- app_assoc).
    rewrite IH; [by rewrite <- app_assoc| rewrite length_app; simpl; lia
                | simpl in Hc; lia | lia].
Qed.

Lemma place_row_blank start codes :
  (start + length codes <= COLS)%nat ->
  place_row start 0 codes (replicate COLS 0)
  = replicate start 0 ++ codes ++ replicate (COLS - start - length codes) 0.
Proof.
  intros H.
  replace (replicate COLS 0) with (replicate start 0 ++ replicate (COLS - start) 0)
    by (rewrite <- replicate_add; f_equal; lia).
  rewrite place_row_app by (rewrite ?length_replicate; lia).
  rewrite drop_replicate. done.
Qed.

Lemma start_col_fits center codes :
  (length codes <= COLS)%nat -> (start_col center codes + length codes <= COLS)%nat.
Proof.
  intros H. unfold start_col. destruct center; [|lia].
  pose proof (Nat.Div0.div_le_upper_bound (COLS - length codes) 2 (COLS - length codes)).
  lia.
Qed.

Lemma place_codes_shape row start codes b :
  board_shape b -> board_shape (place_codes row start 0 codes b).
Proof.
  intros [Hl Hf]. rewrite place_codes_alter. split.
  - by rewrite length_alter.
  - apply Forall_alter; [done|]. intros x _ Hx. by rewrite length_place_row.
Qed.

Lemma create_rows_shape ls : forall row center b b',
  board_shape b -> create_rows row ls center b = Some b' -> board_shape b'.
Proof.
  induction ls as [|line ls IH]; intros row center b b' Hb H; simpl in H.
  - by injection H as <-.
  - destruct (text_to_codes line); [|discriminate].
    eapply IH; [|exact H]. by apply place_codes_shape.
Qed.

Lemma empty_board_shape : board_shape empty_board.
Proof.
  split; [apply length_replicate|]. apply Forall_replicate. apply length_replicate.
Qed.

(** Rows above the current one are left as they are. *)
Lemma create_rows_frame ls : forall row center b b' j,
  create_rows row ls center b = Some b' -> (j < row)%nat -> b' !! j = b !! j.
Proof.
  induction ls as [|line ls IH]; intros row center b b' j H Hj; simpl in H.
  - by injection H as <-.
  - destruct (text_to_codes line); [|discriminate].
    rewrite (IH _ _ _ _ _ H) by lia.
    rewrite place_codes_alter, list_lookup_alter_ne by lia. done.
Qed.

Definition expected_row (center : bool) (codes : list Z) : list Z :=
  let cs := take COLS codes in
  let s := if center then ((COLS - length cs) / 2)%nat else 0%nat in
  replicate s 0 ++ cs ++ replicate (COLS - s - length cs) 0.

Lemma create_rows_rows ls : forall row center b b',
  create_rows row ls center b = Some b' ->
  (forall j, (row <= j < row + length ls)%nat -> b !! j = Some (replicate COLS 0)) ->
  forall k line codes, ls !! k = Some line -> text_to_codes line = Some codes ->
  b' !! (row + k)%nat = Some (expected_row center codes).
Proof.
  induction ls as [|line ls IH]; intros row center b b' H Hb k l codes Hk Hc;
    [done|]; simpl in H.
  destruct (text_to_codes line) as [codes0|] eqn:E; [|discriminate].
  destruct k as [|k]; simpl in Hk.
  - injection Hk as ->. rewrite E in Hc. injection Hc as ->.
    rewrite Nat.add_0_r, (create_rows_frame _ _ _ _ _ _ H) by lia.
    rewrite place_codes_alter, list_lookup_alter_eq, (Hb row) by (simpl; lia).
    simpl. f_equal. rewrite place_row_blank.
    + reflexivity.
    + apply start_col_fits. rewrite length_take. lia.
  - replace (row + S k)%nat with (S row + k)%nat by lia.
    eapply IH; [exact H| |exact Hk|exact Hc].
    intros j Hj. rewrite place_codes_alter, list_lookup_alter_ne by lia.
    apply Hb. simpl. lia.
Qed.

Lemma create_board_shape lines center b :
  create_board lines center = Some b -> board_shape b.
Proof. apply create_rows_shape, empty_board_shape. Qed.

Lemma format_message_shape text center b :
  format_message text center = Some b -> board_shape b.
Proof. apply create_board_shape. Qed.

(** The text [{BLACK}] spelt with the Kelvin sign (U+212A) for its [K]. *)
Definition kelvin_black : pystr := [123; 66; 76; 65; 67; 8490; 125].

(** ** Claim C1 *)

(** C1: every grid that [format_message] (render_message) or
    [create_board] (render_lines) returns has exactly 6 rows of exactly 22
    codes; but they do not return a grid for every text: on [kelvin_black]
    the codec raises [KeyError] and neither returns. *)
Theorem C1_render_shape :
  (forall text center b, format_message text center = Some b ->
     length b = ROWS /\ Forall (fun r => length r = COLS) b) /\
  (forall lines center b, create_board lines center = Some b ->
     length b = ROWS /\ Forall (fun r => length r = COLS) b) /\
  format_message kelvin_black true = None /\
  format_message kelvin_black false = None /\
  create_board [kelvin_black] true = None.
Proof.
  split; [exact format_message_shape|].
  split; [exact create_board_shape|].
  repeat split; reflexivity.
Qed.

(** ** Claim C8 *)

(** C8: the row [r] of the grid [create_board] (render_lines) returns
    holds the line's codes truncated to 22, starting at column
    [(22 - len) / 2] when [center] holds and at column 0 otherwise, blanks
    elsewhere (so an odd residual cell of padding is on the right); and
    [render_lines(["HI"], center=true)] puts [H I] at columns 10 and 11. *)
Theorem C8_create_board_centering (lines : list pystr) (center : bool) (b : board)
    (r : nat) (line : pystr) (codes : list Z) :
  create_board lines center = Some b -> (r < ROWS)%nat ->
  lines !! r = Some line -> text_to_codes line = Some codes ->
  b !! r = Some (expected_row center codes) /\
  create_board [s2l "HI"] true =
    Some ((replicate 10 0 ++ [8; 9] ++ replicate 10 0) :: replicate 5 (replicate 22 0)).
Proof.
  intros Hb Hr Hl Hc. split; [|reflexivity].
  unfold create_board in Hb.
  change r with (0 + r)%nat.
  eapply create_rows_rows; [exact Hb| |by rewrite lookup_take_lt|exact Hc].
  intros j Hj. rewrite length_take in Hj.
  apply lookup_replicate_2. unfold ROWS in *. lia.
Qed.

Lemma C8_create_board_centering_witness :
  create_board [s2l "HI"] true = Some
    ((replicate 10 0 ++ [8; 9] ++ replicate 10 0) :: replicate 5 (replicate 22 0)) /\
  ([s2l "HI"] !! 0%nat = Some (s2l "HI")) /\
  text_to_codes (s2l "HI") = Some [8; 9] /\
  expected_row true [8; 9] = replicate 10 0 ++ [8; 9] ++ replicate 10 0 /\
  ((replicate 10 0 ++ [8; 9] ++ replicate 10 0) :: replicate 5 (replicate 22 0))
    !! 0%nat = Some (expected_row true [8; 9]).
Proof.
  split; [reflexivity|]. split; [reflexivity|]. split; [reflexivity|].
  split; [reflexivity|].
  apply (C8_create_board_centering [s2l "HI"] true _ 0 (s2l "HI") [8; 9]);
    [reflexivity|unfold ROWS; lia|reflexivity|reflexivity].
Defined.

(** ** The codec on ASCII text *)

Definition is_ascii (s : pystr) : Prop := Forall (fun c => 0 <= c < 128) s.

Lemma match_literal_spec name : forall s g r,
  match_literal name s = Some (g, r) ->
  s = g ++ r /\ Forall2 (fun c p => ci_eq c p = true) g name.
Proof.
  induction name as [|p name IH]; intros s g r H; simpl in H.
  - injection H as <- <-. done.
  - destruct s as [|c s]; [discriminate|].
    destruct (ci_eq c p) eqn:E; [|discriminate].
    destruct (match_literal name s) as [[g' r']|] eqn:E'; [|discriminate].
    injection H as <- <-. destruct (IH _ _ _ E') as [-> HF].
    split; [done|]. by constructor.
Qed.

Lemma match_alt_spec name s g r :
  match_alt name s = Some (g, r) ->
  s = 123 :: g ++ 125 :: r /\ Forall2 (fun c p => ci_eq c p = true) g name.
Proof.
  unfold match_alt. destruct s as [|c s]; [discriminate|].
  destruct (Z.eqb_spec c 123) as [->|]; [|discriminate].
  destruct (match_literal name s) as [[g' [|c' r']]|] eqn:E; try discriminate.
  destruct (Z.eqb_spec c' 125) as [->|]; [|discriminate].
  intros H. injection H as <- <-.
  destruct (match_literal_spec _ _ _ _ E) as [-> HF]. done.
Qed.

Lemma first_alt_spec alts s g r :
  first_alt alts s = Some (g, r) -> exists n, In n alts /\ match_alt n s = Some (g, r).
Proof.
  induction alts as [|n alts IH]; simpl; [discriminate|].
  destruct (match_alt n s) as [m|] eqn:E.
  - intros H. injection H as ->. eauto.
  - intros H. destruct (IH H) as (n' & Hin & Hm). eauto.
Qed.

Lemma pattern_match_spec s g r :
  pattern_match s = Some (g, r) ->
  s = 123 :: g ++ 125 :: r /\
  exists n, In n (map fst SPECIAL_CODES) /\ Forall2 (fun c p => ci_eq c p = true) g n.
Proof.
  intros H. destruct (first_alt_spec _ _ _ _ H) as (n & Hin & Hm).
  destruct (match_alt_spec _ _ _ _ Hm) as [-> HF]. eauto.
Qed.

(** An ASCII character equal, up to case, to an upper-case letter [p]
    upper-cases to [p]: checked on all 128 x 26 pairs. *)
Definition ci_upper_table : bool :=
  forallb (fun c => forallb (fun p =>
    negb (ci_eq c p) || bool_decide (py_upper_char c = [p])) (seqZ 65 26)) (seqZ 0 128).

Lemma ci_upper_table_ok : ci_upper_table = true.
Proof. vm_compute. reflexivity. Qed.

Lemma ci_eq_ascii_upper c p :
  0 <= c < 128 -> 65 <= p <= 90 -> ci_eq c p = true -> py_upper_char c = [p].
Proof.
  intros Hc Hp H. pose proof ci_upper_table_ok as T. unfold ci_upper_table in T.
  rewrite forallb_forall in T.
  assert (Tc := T c ltac:(apply list_elem_of_In, elem_of_seqZ; lia)).
  rewrite forallb_forall in Tc.
  assert (Tp := Tc p ltac:(apply list_elem_of_In, elem_of_seqZ; lia)).
  rewrite H in Tp. simpl in Tp. by apply bool_decide_eq_true in Tp.
Qed.

Lemma special_names_upper : Forall (Forall (fun p => 65 <= p <= 90)) (map fst SPECIAL_CODES).
Proof.
  apply List.Forall_forall. intros n Hn. simpl in Hn.
  repeat destruct Hn as [<-|Hn]; try done;
    apply List.Forall_forall; intros p Hp; simpl in Hp;
    repeat destruct Hp as [<-|Hp]; try done; lia.
Qed.

Lemma upper_group_ascii g n :
  is_ascii g -> Forall (fun p => 65 <= p <= 90) n ->
  Forall2 (fun c p => ci_eq c p = true) g n -> py_upper g = n.
Proof.
  intros Hg Hn HF. induction HF as [|c p g n Hcp HF IH]; [done|].
  inversion Hg; inversion Hn; subst. unfold py_upper. simpl.
  rewrite (ci_eq_ascii_upper c p) by done. simpl. f_equal. by apply IH.
Qed.

Lemma dict_get_in {K} `{EqDecision K} (k : K) (d : list (K * Z)) :
  In k (map fst d) -> exists v, dict_get k d = Some v.
Proof.
  induction d as [|[k' v] d IH]; simpl; [done|]. intros [->|H].
  - rewrite decide_True by done. eauto.
  - case_decide; eauto.
Qed.

Lemma is_ascii_app s t : is_ascii (s ++ t) <-> is_ascii s /\ is_ascii t.
Proof. apply Forall_app. Qed.

Lemma codes_loop_ascii_total fuel : forall s,
  is_ascii s -> codes_loop fuel s <> None.
Proof.
  induction fuel as [|fuel IH]; intros s Hs; cbn [codes_loop]; [done|].
  destruct s as [|c s']; [done|].
  inversion Hs as [|? ? Hc Hs']; subst.
  assert (Hreg : (fun cs => char_code c :: cs) <$> codes_loop fuel s' <> None).
  { destruct (codes_loop fuel s') eqn:E; [done|]. by apply IH in E. }
  destruct (c =? 123); [|done].
  destruct (pattern_match (c :: s')) as [[g rest]|] eqn:Em; [|done].
  destruct (pattern_match_spec _ _ _ Em) as [Heq (n & Hin & HF)].
  injection Heq as -> Heq. subst s'.
  apply is_ascii_app in Hs' as [Hg Hr]. inversion Hr; subst.
  assert (Hn : Forall (fun p => 65 <= p <= 90) n)
    by exact (proj1 (List.Forall_forall _ _) special_names_upper n Hin).
  rewrite (upper_group_ascii g n) by done.
  destruct (dict_get_in n SPECIAL_CODES Hin) as [v ->].
  destruct (codes_loop fuel rest) eqn:E; [done|]. by apply IH in E.
Qed.

Lemma py_upper_ascii s : is_ascii s -> is_ascii (py_upper s).
Proof.
  induction 1 as [|c s Hc _ IH]; [constructor|].
  unfold py_upper. simpl. apply Forall_app. split; [|exact IH].
  unfold py_upper_char.
  repeat match goal with
  | |- context [?a =? ?b] => destruct (Z.eqb_spec a b)
  | |- context [?a <=? ?b] => destruct (Z.leb_spec a b)
  end; simpl; repeat constructor; lia.
Qed.

Lemma text_to_codes_ascii_total text :
  is_ascii text -> text_to_codes text <> None.
Proof. intros H. apply codes_loop_ascii_total, py_upper_ascii, H. Qed.

(** [str.upper] on one ASCII character. *)
Definition ascii_up (c : Z) : Z := if (97 <=? c) && (c <=? 122) then c - 32 else c.

Definition ascii_up_table : bool :=
  forallb (fun c => bool_decide (py_upper_char c = [ascii_up c]) &&
                    (sre_fold (ascii_up c) =? sre_fold c) &&
                    Bool.eqb (ascii_up c =? 123) (c =? 123) &&
                    Bool.eqb (ascii_up c =? 125) (c =? 125) &&
                    (0 <=? ascii_up c) && (ascii_up c <? 128)) (seqZ 0 128).

Lemma ascii_up_table_ok : ascii_up_table = true.
Proof. vm_compute. reflexivity. Qed.

Lemma ascii_up_facts c : 0 <= c < 128 ->
  py_upper_char c = [ascii_up c] /\ sre_fold (ascii_up c) = sre_fold c /\
  (ascii_up c =? 123) = (c =? 123) /\ (ascii_up c =? 125) = (c =? 125) /\
  0 <= ascii_up c < 128.
Proof.
  intros Hc. pose proof ascii_up_table_ok as T. unfold ascii_up_table in T.
  rewrite forallb_forall in T.
  assert (Tc := T c ltac:(apply list_elem_of_In, elem_of_seqZ; lia)).
  repeat rewrite andb_true_iff in Tc.
  destruct Tc as [[[[[T1 T2] T3] T4] T5] T6].
  apply bool_decide_eq_true in T1. apply Z.eqb_eq in T2.
  apply Bool.eqb_prop in T3, T4. apply Z.leb_le in T5. apply Z.ltb_lt in T6.
  repeat split; done || lia.
Qed.

Lemma py_upper_ascii_map s : is_ascii s -> py_upper s = map ascii_up s.
Proof.
  induction 1 as [|c s Hc _ IH]; [done|].
  unfold py_upper in *. simpl. rewrite IH. by rewrite (proj1 (ascii_up_facts c Hc)).
Qed.

Lemma match_literal_up name : forall s, is_ascii s ->
  match_literal name (map ascii_up s) =
  (fun '(g, r) => (map ascii_up g, map ascii_up r)) <$> match_literal name s.
Proof.
  induction name as [|p name IH]; intros s Hs; [done|].
  destruct s as [|c s]; [done|]. inversion Hs; subst.
  cbn [map match_literal]. unfold ci_eq.
  rewrite (proj1 (proj2 (ascii_up_facts c ltac:(done)))).
  destruct (sre_fold c =? sre_fold p); [|done].
  rewrite IH by done. by destruct (match_literal name s) as [[g r]|].
Qed.

Lemma match_alt_up name s : is_ascii s ->
  match_alt name (map ascii_up s) =
  (fun '(g, r) => (map ascii_up g, map ascii_up r)) <$> match_alt name s.
Proof.
  intros Hs. destruct s as [|c s]; [done|]. inversion Hs; subst.
  destruct (ascii_up_facts c ltac:(done)) as (_ & _ & E123 & _ & _).
  cbn [map match_alt]. rewrite E123.
  destruct (c =? 123); [|done].
  rewrite match_literal_up by done.
  destruct (match_literal name s) as [[g [|c' r]]|] eqn:E; [done| |done].
  destruct (match_literal_spec _ _ _ _ E) as [-> _].
  assert (Hc' : 0 <= c' < 128).
  { apply Forall_app in H2 as [_ H2]. by inversion H2. }
  destruct (ascii_up_facts c' Hc') as (_ & _ & _ & E125 & _).
  cbn [map fmap option_fmap option_map]. rewrite E125. by destruct (c' =? 125).
Qed.

Lemma pattern_match_up s : is_ascii s ->
  pattern_match (map ascii_up s) =
  (fun '(g, r) => (map ascii_up g, map ascii_up r)) <$> pattern_match s.
Proof.
  intros Hs. unfold pattern_match. generalize (map fst SPECIAL_CODES) as alts.
  induction alts as [|n alts IH]; [done|]. cbn [first_alt].
  rewrite match_alt_up by done. by destruct (match_alt n s).
Qed.

Lemma pattern_match_not_brace c s : c <> 123 -> pattern_match (c :: s) = None.
Proof.
  intros Hc. unfold pattern_match. generalize (map fst SPECIAL_CODES) as alts.
  induction alts as [|n alts IH]; [done|]. cbn [first_alt match_alt].
  rewrite (proj2 (Z.eqb_neq c 123) Hc). exact IH.
Qed.

Lemma codes_loop_scan fuel : forall s, is_ascii s ->
  length <$> codes_loop fuel (map ascii_up s) = Some (length (scan fuel s)).
Proof.
  induction fuel as [|fuel IH]; intros s Hs; [done|].
  destruct s as [|c s']; [done|]. inversion Hs as [|? ? Hc Hs']; subst.
  destruct (ascii_up_facts c Hc) as (_ & _ & E123 & _ & _).
  change (map ascii_up (c :: s')) with (ascii_up c :: map ascii_up s').
  cbn [codes_loop scan].
  replace (pattern_match (ascii_up c :: map ascii_up s'))
    with (pattern_match (map ascii_up (c :: s'))) by reflexivity.
  rewrite pattern_match_up, E123 by done.
  assert (Hreg : length <$> ((fun cs => char_code (ascii_up c) :: cs) <$>
                   codes_loop fuel (map ascii_up s'))
                 = Some (length (Lit c :: scan fuel s'))).
  { rewrite <- option_fmap_compose. unfold compose. simpl.
    specialize (IH s' Hs'). destruct (codes_loop fuel (map ascii_up s')); [|done].
    simpl in *. injection IH as <-. done. }
  destruct (Z.eqb_spec c 123) as [->|Hne].
  - destruct (pattern_match (123 :: s')) as [[g r]|] eqn:Em; [|exact Hreg].
    destruct (pattern_match_spec _ _ _ Em) as [Heq (n & Hin & HF)].
    injection Heq as Heq. subst s'.
    apply is_ascii_app in Hs' as [Hg Hr]. inversion Hr as [|? ? _ Hr']; subst.
    assert (Hn : Forall (fun p => 65 <= p <= 90) n)
      by exact (proj1 (List.Forall_forall _ _) special_names_upper n Hin).
    assert (HF' : Forall2 (fun c p => ci_eq c p = true) (map ascii_up g) n).
    { clear -HF Hg. induction HF as [|c p g n Hcp _ IH]; [constructor|].
      inversion Hg; subst. constructor; [|by apply IH].
      unfold ci_eq in *. by rewrite (proj1 (proj2 (ascii_up_facts c ltac:(done)))). }
    assert (Hg' : is_ascii (map ascii_up g)).
    { apply Forall_fmap, (Forall_impl _ _ _ Hg). intros x Hx.
      apply (ascii_up_facts x Hx). }
    cbn [fmap option_fmap option_map].
    rewrite (upper_group_ascii _ n Hg' Hn HF').
    destruct (dict_get_in n SPECIAL_CODES Hin) as [v ->].
    rewrite <- option_fmap_compose. unfold compose.
    specialize (IH r Hr'). destruct (codes_loop fuel (map ascii_up r)); [|done].
    simpl in *. injection IH as <-. done.
  - rewrite pattern_match_not_brace by done. exact Hreg.
Qed.

Lemma pieces_length ps :
  (length (flat_map (fun p => match p with Lit c => [c] | Tok _ => [] end) ps) +
   length (flat_map (fun p => match p with Tok g => [g] | Lit _ => [] end) ps))%nat
  = length ps.
Proof. induction ps as [|[c|g] ps IH]; simpl; lia. Qed.

(** On ASCII text, the display length is the number of codes. *)
Lemma display_length_ascii text :
  is_ascii text ->
  exists cs, text_to_codes text = Some cs /\ length cs = get_display_length text.
Proof.
  intros H. unfold text_to_codes, get_display_length, sub_empty, findall.
  rewrite pieces_length, py_upper_ascii_map, length_map by done.
  pose proof (codes_loop_scan (length text) text H) as E.
  destruct (codes_loop (length text) (map ascii_up text)) as [cs|]; [|done].
  injection E as E. eauto.
Qed.

(** ** Display length across a space *)

Lemma scan_fuel s f1 f2 : (length s <= f1)%nat -> (length s <= f2)%nat ->
  scan f1 s = scan f2 s.
Proof.
  revert s f2. induction f1 as [|f1 IH]; intros s [|f2] H1 H2;
    destruct s as [|c s']; simpl in *; try lia; try done.
  destruct (pattern_match (c :: s')) as [[g r]|] eqn:Em.
  - destruct (pattern_match_spec _ _ _ Em) as [Heq _]. injection Heq as -> Heq.
    rewrite Heq, length_app in H1, H2. simpl in H1, H2.
    f_equal. apply IH; lia.
  - f_equal. apply IH; lia.
Qed.

Lemma sre_fold_upper p : 65 <= p <= 90 -> sre_fold p = p + 32.
Proof.
  intros Hp. unfold sre_fold, py_lower.
  rewrite (proj2 (Z.leb_le 65 p)), (proj2 (Z.leb_le p 90)) by lia. cbn [andb].
  rewrite (proj2 (Z.eqb_neq (p + 32) 305)), (proj2 (Z.eqb_neq (p + 32) 383)) by lia.
  reflexivity.
Qed.

Lemma ci_eq_space p : 65 <= p <= 90 -> ci_eq 32 p = false.
Proof.
  intros Hp. unfold ci_eq. rewrite (sre_fold_upper p) by done.
  change (sre_fold 32) with 32. apply Z.eqb_neq. lia.
Qed.

Definition shift_rest (b : pystr) (m : pystr * pystr) : pystr * pystr :=
  (m.1, m.2 ++ 32 :: b).

Lemma match_literal_space name : forall a b,
  Forall (fun p => 65 <= p <= 90) name ->
  match_literal name (a ++ 32 :: b) = shift_rest b <$> match_literal name a.
Proof.
  induction name as [|p name IH]; intros a b Hn; [done|]. inversion Hn; subst.
  destruct a as [|c a]; cbn [app match_literal].
  - by rewrite ci_eq_space.
  - destruct (ci_eq c p); [|done]. rewrite IH by done.
    by destruct (match_literal name a) as [[g r]|].
Qed.

Lemma pattern_match_space a b :
  pattern_match (a ++ 32 :: b) = shift_rest b <$> pattern_match a.
Proof.
  unfold pattern_match. pose proof special_names_upper as Hn.
  induction (map fst SPECIAL_CODES) as [|n alts IH]; [done|].
  inversion Hn; subst. cbn [first_alt].
  assert (E : match_alt n (a ++ 32 :: b) = shift_rest b <$> match_alt n a).
  { destruct a as [|c a]; [done|]. cbn [app match_alt].
    destruct (c =? 123); [|done]. rewrite match_literal_space by done.
    destruct (match_literal n a) as [[g [|c' r]]|]; [done| |done].
    cbn [fmap option_fmap option_map shift_rest fst snd app].
    by destruct (c' =? 125). }
  rewrite E. destruct (match_alt n a); [done|]. by apply IH.
Qed.

Lemma scan_space fuel : forall (a b : pystr), (length (a ++ 32%Z :: b) <= fuel)%nat ->
  scan fuel (a ++ 32 :: b) = scan fuel a ++ Lit 32 :: scan fuel b.
Proof.
  induction fuel as [|fuel IH]; intros a b H.
  { rewrite length_app in H. simpl in H. lia. }
  rewrite length_app in H. simpl in H.
  destruct a as [|c a].
  - change ([] ++ 32 :: b) with (32 :: b).
    replace (scan (S fuel) (32 :: b)) with
      (match pattern_match (32 :: b) with
       | Some (g, rest) => Tok g :: scan fuel rest
       | None => Lit 32 :: scan fuel b
       end) by reflexivity.
    rewrite pattern_match_not_brace by lia.
    change (scan (S fuel) []) with (@nil piece). rewrite app_nil_l.
    rewrite (scan_fuel b fuel (S fuel)) by (simpl in H; lia). reflexivity.
  - rewrite (scan_fuel b (S fuel) fuel) by lia.
    replace (scan (S fuel) ((c :: a) ++ 32 :: b)) with
      (match pattern_match ((c :: a) ++ 32 :: b) with
       | Some (g, rest) => Tok g :: scan fuel rest
       | None => Lit c :: scan fuel ((a ++ 32 :: b))
       end) by reflexivity.
    change (scan (S fuel) (c :: a)) with
      (match pattern_match (c :: a) with
       | Some (g, rest) => Tok g :: scan fuel rest
       | None => Lit c :: scan fuel a
       end).
    rewrite pattern_match_space.
    destruct (pattern_match (c :: a)) as [[g r]|] eqn:Em;
      cbn [fmap option_fmap option_map shift_rest fst snd].
    + destruct (pattern_match_spec _ _ _ Em) as [Heq _]. injection Heq as -> ->.
      simpl in H. rewrite length_app in H. simpl in H.
      rewrite IH by (rewrite length_app; simpl; lia).
      rewrite (scan_fuel b fuel (S fuel)) by lia. reflexivity.
    + rewrite IH by (rewrite length_app; simpl in *; lia).
      rewrite (scan_fuel b fuel (S fuel)) by (simpl in H; lia). reflexivity.
Qed.

Lemma display_length_scan s : get_display_length s = length (scan (length s) s).
Proof. unfold get_display_length, sub_empty, findall. apply pieces_length. Qed.

Lemma display_length_space a b :
  get_display_length (a ++ 32 :: b) =
  (get_display_length a + 1 + get_display_length b)%nat.
Proof.
  rewrite !display_length_scan, scan_space by lia.
  rewrite (scan_fuel a (length (a ++ 32 :: b)) (length a))
    by (rewrite ?length_app; simpl; lia).
  rewrite (scan_fuel b (length (a ++ 32 :: b)) (length b))
    by (rewrite ?length_app; simpl; lia).
  rewrite length_app. simpl. lia.
Qed.

(** ** [wrap_text]: lines as groups of words *)

Definition dlZ (w : pystr) : Z := Z.of_nat (get_display_length w).

(** A group of words that [wrap_text] may emit as one line: it fits in
    [width], or it is a single word wider than [width]. *)
Definition line_fits (width : Z) (g : list pystr) : Prop :=
  g <> [] /\ (dlZ (join_space g) <= width \/ exists w, g = [w] /\ width < dlZ w).

Definition wrap_inv (width : Z) (seen : list pystr) (st : wrap_state) : Prop :=
  exists groups,
    lines st = map join_space groups /\
    concat groups ++ current_line st = seen /\
    Forall (line_fits width) groups /\
    ((current_line st = [] /\ current_length st = 0) \/
     (line_fits width (current_line st) /\
      current_length st = dlZ (join_space (current_line st)))).

Lemma join_space_cons w g : g <> [] -> join_space (w :: g) = w ++ 32 :: join_space g.
Proof. by destruct g. Qed.

Lemma join_space_snoc g w : g <> [] -> join_space (g ++ [w]) = join_space g ++ 32 :: w.
Proof.
  induction g as [|x g IH]; [done|]. intros _.
  destruct g as [|y g]; [done|].
  rewrite <- app_comm_cons, !join_space_cons by (try destruct g; done).
  rewrite IH by done. by rewrite <- app_assoc.
Qed.

Lemma wrap_step_inv width seen st w :
  wrap_inv width seen st -> wrap_inv width (seen ++ [w]) (wrap_step width st w).
Proof.
  intros (groups & Hl & Hc & Hf & Hcur). unfold wrap_step.
  destruct st as [ls cur len]; simpl in *.
  assert (Hw : line_fits width [w]).
  { split; [done|]. unfold dlZ. simpl.
    destruct (Z.le_gt_cases (Z.of_nat (get_display_length w)) width);
      [left; lia|right; exists w; split; [done|lia]]. }
  unfold dlZ in *.
  match goal with |- context [?x <=? width] => destruct (Z.leb_spec x width) as [Hfit|Hfit] end.
  - exists groups. simpl. split; [done|]. split; [by rewrite app_assoc, Hc|].
    split; [done|]. right.
    destruct Hcur as [[-> ->]|[[Hne _] ->]].
    + simpl. split; [split; [done|left; unfold dlZ; simpl; lia]|unfold dlZ; lia].
    + destruct cur as [|x cur]; [done|].
      assert (E : dlZ (join_space ((x :: cur) ++ [w])) =
        Z.of_nat (get_display_length (join_space (x :: cur))) +
        Z.of_nat (get_display_length w) + 1).
      { unfold dlZ. rewrite join_space_snoc, display_length_space by done. lia. }
      rewrite E, length_app. cbn [length].
      match goal with |- context [(1 <? ?n)%nat] => destruct (Nat.ltb_spec 1 n) as [_|Hlt]; [|lia] end.
      split; [split; [by destruct cur|left; rewrite E; lia]|lia].
  - destruct Hcur as [[-> ->]|[Hcur ->]].
    + exists groups. simpl. split; [done|]. split; [by rewrite <- Hc, !app_nil_r|].
      split; [done|]. right. split; [done|reflexivity].
    + exists (groups ++ [cur]). simpl.
      destruct cur as [|x cur]; [by destruct Hcur|].
      split; [by rewrite Hl, map_app|].
      split; [by rewrite concat_app, <- Hc; simpl; rewrite app_nil_r, <- app_assoc|].
      split; [apply Forall_app; split; [done|by constructor]|].
      right. split; [done|reflexivity].
Qed.

Lemma wrap_fold_inv width ws : forall seen st,
  wrap_inv width seen st ->
  wrap_inv width (seen ++ ws) (fold_left (wrap_step width) ws st).
Proof.
  induction ws as [|w ws IH]; intros seen st H; simpl; [by rewrite app_nil_r|].
  replace (seen ++ w :: ws) with ((seen ++ [w]) ++ ws) by (by rewrite <- app_assoc).
  apply IH, wrap_step_inv, H.
Qed.

Lemma wrap_text_groups text width :
  exists groups,
    wrap_text text width = map join_space groups /\
    concat groups = py_split text /\
    Forall (line_fits width) groups.
Proof.
  assert (H0 : wrap_inv width [] (WrapState [] [] 0))
    by (exists []; simpl; repeat split; [constructor|left; done]).
  destruct (wrap_fold_inv width (py_split text) [] _ H0)
    as (groups & Hl & Hc & Hf & Hcur).
  unfold wrap_text.
  destruct (fold_left (wrap_step width) (py_split text) (WrapState [] [] 0))
    as [ls cur len]. simpl in *. subst ls.
  destruct Hcur as [[-> _]|[Hcur _]].
  - exists groups. rewrite app_nil_r in Hc. done.
  - exists (groups ++ [cur]). destruct cur as [|x cur]; [by destruct Hcur|].
    split; [by rewrite map_app|].
    split; [by rewrite concat_app; simpl; rewrite app_nil_r|].
    apply Forall_app. split; [done|by constructor].
Qed.

Lemma display_length_member g w :
  In w g -> (get_display_length w <= get_display_length (join_space g))%nat.
Proof.
  induction g as [|x g IH]; [done|]. intros [->|Hin].
  - destruct g as [|y g]; [done|]. rewrite join_space_cons, display_length_space by done. lia.
  - destruct g as [|y g]; [done|]. rewrite join_space_cons, display_length_space by done.
    specialize (IH Hin). lia.
Qed.

Lemma display_length_member_lt g w :
  In w g -> g <> [w] -> (get_display_length w < get_display_length (join_space g))%nat.
Proof.
  destruct g as [|x [|y g]]; [done| |].
  - intros [->|[]] H. done.
  - intros Hin _. rewrite join_space_cons, display_length_space by done.
    destruct Hin as [->|Hin]; [lia|].
    pose proof (display_length_member _ _ Hin). lia.
Qed.

Lemma split_aux_nonempty s : forall cur, Forall (fun w => w <> []) (split_aux cur s).
Proof.
  induction s as [|c s IH]; intros cur; simpl.
  - destruct cur; repeat constructor; done.
  - destruct (py_isspace c).
    + apply Forall_app. split; [destruct cur; repeat constructor; done|apply IH].
    + apply IH.
Qed.

Lemma join_space_app g k :
  g <> [] -> k <> [] -> join_space (g ++ k) = join_space g ++ 32 :: join_space k.
Proof.
  induction g as [|x g IH]; intros Hg Hk; [done|].
  destruct g as [|y g].
  - change ([x] ++ k) with (x :: k). by rewrite join_space_cons.
  - rewrite <- app_comm_cons, join_space_cons by (by destruct g).
    rewrite IH by done. rewrite (join_space_cons x (y :: g)) by done.
    by rewrite <- app_assoc.
Qed.

Lemma join_space_concat groups :
  Forall (fun g => g <> []) groups ->
  join_space (map join_space groups) = join_space (concat groups).
Proof.
  induction 1 as [|g gs Hg Hgs IH]; [done|].
  destruct gs as [|h hs].
  - simpl. by rewrite app_nil_r.
  - inversion Hgs as [|? ? Hh _]; subst.
    change (map join_space (g :: h :: hs)) with (join_space g :: map join_space (h :: hs)).
    change (concat (g :: h :: hs)) with (g ++ concat (h :: hs)).
    rewrite join_space_cons by (simpl; congruence).
    rewrite join_space_app; [by rewrite IH|done|].
    destruct h; [done|]. simpl. congruence.
Qed.

Lemma join_space_nonempty g :
  g <> [] -> Forall (fun w => w <> []) g -> join_space g <> [].
Proof.
  destruct g as [|x g]; [done|]. intros _ Hx. inversion Hx; subst.
  destruct g; [done|]. rewrite join_space_cons by done.
  destruct x; [done|]. done.
Qed.

(** ** Claim C7 *)

(** C7: [wrap_text text width] emits, in order, the lines of a grouping
    of the words of [text.split()]; each line's display length is at most
    [width] unless the line is a single word wider than [width], which is
    then alone and unchanged on its line; and [wrap("A B C", 22)] is the
    one line ["A B C"]. *)
Theorem C7_wrap_width :
  (forall text width, exists groups,
     wrap_text text width = map join_space groups /\
     concat groups = py_split text /\
     Forall (fun g => Z.of_nat (get_display_length (join_space g)) <= width \/
                      exists w, g = [w] /\ width < Z.of_nat (get_display_length w)) groups /\
     (forall g w, In g groups -> In w g ->
        width < Z.of_nat (get_display_length w) -> g = [w])) /\
  wrap_text (s2l "A B C") 22 = [s2l "A B C"].
Proof.
  split; [|reflexivity]. intros text width.
  destruct (wrap_text_groups text width) as (groups & Hw & Hc & Hf).
  exists groups. split; [done|]. split; [done|]. split.
  - eapply Forall_impl; [exact Hf|]. intros g [_ H]. exact H.
  - intros g w Hg Hin Hlt.
    destruct (proj1 (List.Forall_forall _ _) Hf g Hg) as [_ [Hle|(w' & -> & _)]].
    + destruct (decide (g = [w])) as [|Hne]; [done|].
      pose proof (display_length_member_lt g w Hin Hne). unfold dlZ in Hle. lia.
    + by destruct Hin as [->|[]].
Qed.

(** ** Claim C10 *)

(** C10: the lines of [wrap_text text width], joined with single spaces,
    are the words of [text.split()] joined with single spaces (no word is
    dropped, duplicated, moved or changed), and no line is empty. *)
Theorem C10_wrap_preserves_words :
  forall text width,
    join_space (wrap_text text width) = join_space (py_split text) /\
    Forall (fun l => l <> []) (wrap_text text width).
Proof.
  intros text width.
  destruct (wrap_text_groups text width) as (groups & Hw & Hc & Hf).
  assert (Hne : Forall (fun g => g <> []) groups).
  { eapply Forall_impl; [exact Hf|]. intros g [H _]. exact H. }
  assert (Hwords : Forall (fun g => Forall (fun w => w <> []) g) groups).
  { pose proof (split_aux_nonempty text []) as Hs. fold (py_split text) in Hs.
    rewrite <- Hc in Hs. by apply Forall_concat in Hs. }
  rewrite Hw. split.
  - by rewrite join_space_concat, Hc.
  - apply List.Forall_map, List.Forall_forall. intros g Hg.
    apply join_space_nonempty.
    + exact (proj1 (List.Forall_forall _ _) Hne g Hg).
    + exact (proj1 (List.Forall_forall _ _) Hwords g Hg).
Qed.

(** ** Claim C2 *)

(** C2: [get_display_length] counts the text as written, while
    [text_to_codes] encodes [text.upper()]: on ["ß"] (U+00DF), which
    upper-cases to ["SS"], the display length is 1 but the encoding has 2
    codes.  On ASCII text the two agree, and [display_length("{RED}HI")]
    is 3. *)
Theorem C2_display_length_vs_encode :
  get_display_length [223] = 1%nat /\
  text_to_codes [223] = Some [19; 19] /\
  get_display_length (s2l "{RED}HI") = 3%nat /\
  (forall text, is_ascii text ->
     exists cs, text_to_codes text = Some cs /\ length cs = get_display_length text).
Proof.
  split; [reflexivity|]. split; [reflexivity|]. split; [reflexivity|].
  exact display_length_ascii.
Qed.

(** ** Claim C9 *)

(** C9: [text_to_codes] is not total: on [kelvin_black] the pattern
    matches case-insensitively (the Kelvin sign folds to [k]), but
    [.upper()] leaves the group as it is, so [SPECIAL_CODES[code_name]]
    raises [KeyError].  It never fails on ASCII text, where a token is
    matched case-insensitively ([{blue}] gives 67), an unmapped character
    gives 0 and an unmatched brace sequence is encoded character by
    character, the braces as 0. *)
Theorem C9_codec_totality :
  text_to_codes kelvin_black = None /\
  (forall text, is_ascii text -> text_to_codes text <> None) /\
  text_to_codes (s2l "{blue}") = Some [67] /\
  text_to_codes (s2l "~") = Some [0] /\
  text_to_codes (s2l "{PINK}") = Some [0; 16; 9; 14; 11; 0].
Proof.
  split; [reflexivity|]. split; [exact text_to_codes_ascii_total|].
  repeat split; reflexivity.
Qed.

(** ** Scheduler: executions, due checks and passes *)

Section SchedulerProofs.

Variable send_message : string -> exc bool.
Variable send_lines : list string -> exc bool.
Variable provider_optional : string -> exc (option (list string)).
Variable provider_lines : string -> exc (list string).
Variable cron_next : string -> Z -> option Z.

Local Abbreviation body := (execute_body send_message send_lines provider_optional provider_lines).
Local Abbreviation exec := (execute_message send_message send_lines provider_optional provider_lines).
Local Abbreviation pass := (check_and_run_scheduled send_message send_lines provider_optional provider_lines cron_next).

(** The flag [execute_message] returns depends on the trigger only. *)
Definition exec_success (msg : ScheduledMessage) : bool :=
  match body msg with Ok (_, b) => b | Exn _ => false end.

Definition due_outcome (now : Z) (msg : ScheduledMessage) : check_outcome :=
  match cron_next (cron_expression msg) (anchor msg) with
  | None => CheckError
  | Some next => if next <=? now then Ran next (exec_success msg) else NotDue next
  end.

Lemma exec_snd now st msg : snd (exec now st msg) = exec_success msg.
Proof.
  unfold execute_message, exec_success.
  destruct (body msg) as [[c b]|e]; [destruct b|]; reflexivity.
Qed.

Lemma check_pass_fold now updated ms st tr :
  fold_left (check_one send_message send_lines provider_optional provider_lines cron_next now updated) ms (st, tr) =
  (fold_left (fun s m => if is_due cron_next now m then fst (exec updated s m) else s) ms st,
   tr ++ map (fun m => (msg_id m, due_outcome now m)) ms).
Proof.
  revert st tr. induction ms as [|m ms IH]; intros st tr; cbn [fold_left map].
  - by rewrite app_nil_r.
  - assert (Hc : check_one send_message send_lines provider_optional provider_lines cron_next now updated (st, tr) m =
      match cron_next (cron_expression m) (anchor m) with
      | None => (st, tr ++ [(msg_id m, CheckError)])
      | Some next =>
          if next <=? now then
            let '(st', success) := exec updated st m in
            (st', tr ++ [(msg_id m, Ran next success)])
          else (st, tr ++ [(msg_id m, NotDue next)])
      end) by reflexivity.
    assert (Hd : is_due cron_next now m =
      match cron_next (cron_expression m) (anchor m) with
      | Some next => next <=? now | None => false end) by reflexivity.
    assert (Ho : due_outcome now m =
      match cron_next (cron_expression m) (anchor m) with
      | None => CheckError
      | Some next => if next <=? now then Ran next (exec_success m) else NotDue next
      end) by reflexivity.
    rewrite Hc, Hd, Ho.
    destruct (cron_next (cron_expression m) (anchor m)) as [next|].
    + destruct (next <=? now).
      * pose proof (exec_snd updated st m) as H.
        destruct (exec updated st m) as [st' s] eqn:E. simpl in H. subst s.
        rewrite IH. simpl. by rewrite <- app_assoc.
      * rewrite IH. by rewrite <- app_assoc.
    + rewrite IH. by rewrite <- app_assoc.
Qed.

Lemma pass_eq now updated st :
  pass now updated st =
  (fold_left (fun s m => if is_due cron_next now m then fst (exec updated s m) else s)
     (get_scheduled_messages_enabled st) st,
   map (fun m => (msg_id m, due_outcome now m)) (get_scheduled_messages_enabled st)).
Proof. unfold check_and_run_scheduled. by rewrite check_pass_fold. Qed.

(** C3: one execution appends exactly one [message_log] record carrying
    the success flag of the send (false when the body raised or had no
    data); [last_run] of the trigger is set iff that flag is true; after a
    failure the stored triggers are untouched, so a trigger due at [now]
    is due again at any later check. *)
Theorem C3_execute_log_and_last_run (now : Z) (st : Storage) (msg : ScheduledMessage) :
  let '(st', success) := exec now st msg in
  success = match body msg with Ok (_, b) => b | Exn _ => false end /\
  (exists c, message_log st' =
     message_log st ++ [{| log_type := message_type msg; log_content := c; log_success := success |}]) /\
  (success = true ->
     scheduled_messages st' = scheduled_messages (update_last_run st (msg_id msg) now)) /\
  (success = false ->
     scheduled_messages st' = scheduled_messages st /\
     forall m now', In m (scheduled_messages st') -> now <= now' ->
       is_due cron_next now m = true -> is_due cron_next now' m = true).
Proof.
  unfold execute_message.
  destruct (body msg) as [[c b]|e] eqn:Eb; [destruct b|]; simpl.
  - split; [done|]. split; [by eexists|]. split; [done|]. discriminate.
  - split; [done|]. split; [by eexists|]. split; [discriminate|].
    intros _. split; [done|]. intros m now' _ Hle. unfold is_due.
    destruct (cron_next _ _); [|done]. rewrite !Z.leb_le. lia.
  - split; [done|]. split; [by eexists|]. split; [discriminate|].
    intros _. split; [done|]. intros m now' _ Hle. unfold is_due.
    destruct (cron_next _ _); [|done]. rewrite !Z.leb_le. lia.
Qed.

(** C4: in a pass, the enabled triggers are checked in order; each one's
    next occurrence is computed from [last_run], or from 2000-01-01 when
    it never ran, and the trigger is executed exactly when that occurrence
    is at or before [now]. *)
Theorem C4_due_check (now updated : Z) (st : Storage) :
  let E := get_scheduled_messages_enabled st in
  fst (pass now updated st) =
    fold_left (fun s m => if is_due cron_next now m then fst (exec updated s m) else s) E st /\
  Forall2 (fun m io =>
     fst io = msg_id m /\
     match cron_next (cron_expression m)
             (match last_run m with Some t => t | None => epoch_sentinel end) with
     | None => snd io = CheckError
     | Some next => (next <= now -> snd io = Ran next (exec_success m)) /\
                    (now < next -> snd io = NotDue next)
     end) E (snd (pass now updated st)) /\
  (forall m, is_due cron_next now m = true <->
     exists next, cron_next (cron_expression m)
       (match last_run m with Some t => t | None => epoch_sentinel end) = Some next /\ next <= now) /\
  (forall m, last_run m = None ->
     (is_due cron_next now m = true <->
      exists next, cron_next (cron_expression m) epoch_sentinel = Some next /\ next <= now)).
Proof.
  intros E. rewrite pass_eq. simpl. split; [done|]. split.
  - apply Forall2_fmap_r, Forall_Forall2_diag, Forall_forall. intros m _. simpl.
    split; [done|]. unfold due_outcome, anchor.
    destruct (cron_next _ _) as [next|]; [|done]. split; intros H.
    + apply Z.leb_le in H. by rewrite H.
    + apply Z.leb_gt in H. by rewrite H.
  - split.
    + intros m. unfold is_due, anchor. destruct (cron_next _ _) as [next|].
      * rewrite Z.leb_le. split; [intros; by exists next|]. intros (n & [= ->] & ?); done.
      * split; [done|]. by intros (n & ? & ?).
    + intros m Hm. unfold is_due, anchor. rewrite Hm. destruct (cron_next _ _) as [next|].
      * rewrite Z.leb_le. split; [intros; by exists next|]. intros (n & [= ->] & ?); done.
      * split; [done|]. by intros (n & ? & ?).
Qed.

End SchedulerProofs.

Lemma run_loop_length sm sl po pl cn ticks st :
  length (snd (run_loop sm sl po pl cn ticks st)) = length ticks.
Proof.
  revert st. induction ticks as [|[now updated] ticks IH]; intros st; [done|]. simpl.
  destruct (check_and_run_scheduled sm sl po pl cn now updated st) as [st1 tr].
  specialize (IH st1). destruct (run_loop sm sl po pl cn ticks st1) as [st2 trs].
  simpl in *. by rewrite IH.
Qed.

(** C5: whatever the collaborators do (croniter raising on a malformed
    expression, a provider or a send raising, a send returning false), a
    pass reports every enabled trigger, in order, and each trigger's
    outcome is determined by that trigger alone; the loop runs one pass
    per tick.  On a concrete pass where the first trigger's cron
    expression is malformed, the second's provider raises and the third's
    send raises, the fourth is still sent. *)
Theorem C5_pass_isolation :
  (forall sm sl po pl cn now updated st,
     snd (check_and_run_scheduled sm sl po pl cn now updated st) =
     map (fun m => (msg_id m, due_outcome sm sl po pl cn now m))
       (get_scheduled_messages_enabled st)) /\
  (forall sm sl po pl cn ticks st,
     length (snd (run_loop sm sl po pl cn ticks st)) = length ticks) /\
  check_and_run_scheduled demo_send_message demo_send_lines demo_provider_optional
    demo_provider_lines demo_cron (epoch_sentinel + 100) (epoch_sentinel + 100) demo_storage =
  ({| scheduled_messages :=
        [demo_trigger 1 "text" "HELLO" "bad";
         demo_trigger 2 "weather" "WX" "0 7 * * *";
         demo_trigger 3 "text" "boom" "0 6 * * *";
         set_last_run (epoch_sentinel + 100) (demo_trigger 4 "text" "HELLO" "0 6 * * *")];
      message_log :=
        [{| log_type := "weather"; log_content := "ConnectionError"; log_success := false |};
         {| log_type := "text"; log_content := "KeyError"; log_success := false |};
         {| log_type := "text"; log_content := "HELLO"; log_success := true |}] |},
   [(1%nat, CheckError); (2%nat, Ran (epoch_sentinel + 60) false);
    (3%nat, Ran (epoch_sentinel + 60) false); (4%nat, Ran (epoch_sentinel + 60) true)]).
Proof.
  split; [|split].
  - intros. by rewrite pass_eq.
  - exact run_loop_length.
  - vm_compute. reflexivity.
Qed.

(** ** Flight watcher: change detection *)

Lemma app_single_neq {A} (l : list A) x : l ++ [x] <> l.
Proof. intros H. apply (f_equal length) in H. rewrite length_app in H. simpl in H. lia. Qed.

Lemma check_flight_events fetch render today ws f :
  watch_events (check_flight fetch render today ws f) <> watch_events ws <->
  flight_date f = today /\ exists s, fetch (flight_number f) (flight_date f) = Some s /\
    last_flight_status ws !! flight_key f <> Some s.
Proof.
  unfold check_flight.
  destruct (String.eqb (flight_date f) today) eqn:Ed; simpl.
  - apply String.eqb_eq in Ed.
    destruct (fetch (flight_number f) (flight_date f)) as [s|] eqn:Ef.
    + case_bool_decide as Hs.
      * split; [done|]. intros (_ & s' & [= <-] & Hn). done.
      * split; [intros _; split; [done|]; by exists s|]. intros _.
        destruct (render f s) as [[lines b]|e]; simpl; apply app_single_neq.
    + split; [done|]. by intros (_ & s' & ? & _).
  - apply String.eqb_neq in Ed. split; [done|]. by intros [? _].
Qed.

Lemma check_flight_memory fetch render today ws f s lines b :
  flight_date f = today -> fetch (flight_number f) (flight_date f) = Some s ->
  render f s = Ok (lines, b) ->
  last_flight_status (check_flight fetch render today ws f) !! flight_key f = Some s.
Proof.
  intros Ed Ef Er. unfold check_flight. rewrite Ef, Ed, String.eqb_refl. simpl.
  case_bool_decide as Hs; [done|]. rewrite Er. simpl. by rewrite lookup_insert_eq.
Qed.

(** C6: for a tracked flight of today, the watcher attempts a display
    update exactly when the fetched status differs from the one recorded
    for its key (no record counts as different), and once the update is
    rendered and sent the status is recorded.  Fed the same status twice
    and then another, starting with no record, it dispatches on the first
    and third observation only. *)
Theorem C6_flight_change_detection :
  (forall fetch render today ws f,
     (watch_events (check_flight fetch render today ws f) <> watch_events ws <->
      flight_date f = today /\ exists s, fetch (flight_number f) (flight_date f) = Some s /\
        last_flight_status ws !! flight_key f <> Some s) /\
     (forall s lines b, flight_date f = today ->
        fetch (flight_number f) (flight_date f) = Some s -> render f s = Ok (lines, b) ->
        last_flight_status (check_flight fetch render today ws f) !! flight_key f = Some s)) /\
  (forall (render : TrackedFlight -> string -> list string * bool) n today st s1 s2,
     let f := {| flight_number := n; flight_date := today |} in
     watch_events
       (watch_passes [(fun _ _ => Some s1); (fun _ _ => Some s1); (fun _ _ => Some s2)]
          (fun f s => Ok (render f s)) today [f]
          {| last_flight_status := empty; watch_storage := st; watch_events := [] |}) =
     FlightUpdate (flight_key f) s1 (Ok (snd (render f s1))) ::
       (if bool_decide (s1 = s2) then []
        else [FlightUpdate (flight_key f) s2 (Ok (snd (render f s2)))])).
Proof.
  split.
  - intros fetch render today ws f. split; [apply check_flight_events|].
    intros s lines b. apply check_flight_memory.
  - intros render n today st s1 s2 f.
    unfold watch_passes, check_active_flights. cbn [fold_left].
    unfold check_flight. cbn [flight_date flight_number]. rewrite String.eqb_refl. cbn [negb].
    cbn [last_flight_status watch_events watch_storage].
    rewrite lookup_empty, (bool_decide_false (None = Some s1)) by done.
    destruct (render f s1) as [l1 b1] eqn:E1.
    cbn [last_flight_status watch_events watch_storage].
    rewrite lookup_insert_eq, (bool_decide_true (Some s1 = Some s1)) by done.
    cbn [last_flight_status watch_events watch_storage].
    rewrite lookup_insert_eq.
    destruct (decide (s1 = s2)) as [<-|Hne].
    + rewrite !bool_decide_true by done. done.
    + rewrite (bool_decide_false (Some s1 = Some s2)) by congruence.
      rewrite (bool_decide_false (s1 = s2)) by done.
      destruct (render f s2) as [l2 b2] eqn:E2. done.
Qed.

(** * Further properties of the symbol codec *)

Lemma pattern_match_shorter s g r :
  pattern_match s = Some (g, r) -> (length r < length s)%nat.
Proof.
  intros H. apply pattern_match_spec in H as [-> _].
  cbn [length]. rewrite length_app. cbn [length]. lia.
Qed.

Lemma codes_loop_fuel f1 : forall f2 s,
  (length s <= f1)%nat -> (length s <= f2)%nat -> codes_loop f1 s = codes_loop f2 s.
Proof.
  induction f1 as [|f1 IH]; intros [|f2] s H1 H2.
  - done.
  - destruct s; [done|]. simpl in H1. lia.
  - destruct s; [done|]. simpl in H2. lia.
  - destruct s as [|c s']; [done|]. simpl in H1, H2. cbn [codes_loop].
    rewrite (IH f2 s') by lia.
    destruct (c =? 123); [|done].
    destruct (pattern_match (c :: s')) as [[g r]|] eqn:Hp; [|done].
    pose proof (pattern_match_shorter _ _ _ Hp) as Hr. simpl in Hr.
    destruct (dict_get (py_upper g) SPECIAL_CODES); [|done].
    by rewrite (IH f2 r) by lia.
Qed.

Lemma dict_get_some_in {K} `{EqDecision K} (k : K) (d : list (K * Z)) v :
  dict_get k d = Some v -> In v (map snd d).
Proof.
  induction d as [|[k' v'] d IH]; simpl; [discriminate|].
  destruct (decide (k = k')); [intros [= ->]; by left|]. intros H. right. by apply IH.
Qed.

Lemma char_code_in c : In (char_code c) (map snd CHAR_CODES).
Proof.
  unfold char_code. destruct (dict_get c CHAR_CODES) eqn:E.
  - by apply dict_get_some_in in E.
  - simpl. by left.
Qed.

Lemma codes_loop_valid f : forall s cs,
  codes_loop f s = Some cs ->
  Forall (fun v => In v (map snd CHAR_CODES) \/ In v (map snd SPECIAL_CODES)) cs /\
  (length cs <= length s)%nat.
Proof.
  induction f as [|f IH]; intros s cs H; cbn [codes_loop] in H.
  - injection H as <-. split; [constructor|simpl; lia].
  - destruct s as [|c s'].
    + injection H as <-. split; [constructor|simpl; lia].
    + destruct (c =? 123).
      * destruct (pattern_match (c :: s')) as [[g r]|] eqn:Hp.
        -- pose proof (pattern_match_shorter _ _ _ Hp) as Hr.
           destruct (dict_get (py_upper g) SPECIAL_CODES) as [code|] eqn:Hd; [|discriminate].
           destruct (codes_loop f r) as [cs'|] eqn:Hl; simpl in H; [|discriminate].
           injection H as <-. destruct (IH r cs' Hl) as [Hv Hlen].
           split; [constructor; [right; by eapply dict_get_some_in|done]|].
           cbn [length] in *. lia.
        -- destruct (codes_loop f s') as [cs'|] eqn:Hl; simpl in H; [|discriminate].
           injection H as <-. destruct (IH s' cs' Hl) as [Hv Hlen].
           split; [constructor; [left; apply char_code_in|done]|]. simpl. lia.
      * destruct (codes_loop f s') as [cs'|] eqn:Hl; simpl in H; [|discriminate].
        injection H as <-. destruct (IH s' cs' Hl) as [Hv Hlen].
        split; [constructor; [left; apply char_code_in|done]|]. simpl. lia.
Qed.

Lemma py_upper_app a b : py_upper (a ++ b) = py_upper a ++ py_upper b.
Proof. unfold py_upper. apply flat_map_app. Qed.

Ltac bool_facts :=
  repeat match goal with
  | E : (_ && _) = true |- _ => apply andb_prop in E as [? ?]
  | E : (_ <=? _) = true |- _ => apply Z.leb_le in E
  | E : (_ =? _) = true |- _ => apply Z.eqb_eq in E
  | E : (_ =? _) = false |- _ => apply Z.eqb_neq in E
  | E : negb _ = true |- _ => apply negb_true_iff in E
  end.

Lemma py_upper_char_brace c : In 123 (py_upper_char c) -> c = 123.
Proof.
  unfold py_upper_char. intros H.
  repeat match type of H with context [if ?b then _ else _] => destruct b eqn:? end;
  bool_facts; simpl in H; lia.
Qed.

Lemma py_upper_no_brace a : ~ In 123 a -> ~ In 123 (py_upper a).
Proof.
  intros Ha H. unfold py_upper in H. apply in_flat_map in H as (c & Hc & H).
  apply py_upper_char_brace in H. subst. done.
Qed.

Lemma codes_loop_nobrace_app a : forall b f,
  ~ In 123 a -> (length (a ++ b) <= f)%nat ->
  codes_loop f (a ++ b) = (fun cs => map char_code a ++ cs) <$> codes_loop (length b) b.
Proof.
  induction a as [|c a IH]; intros b f Ha Hf.
  - simpl in *. rewrite (codes_loop_fuel f (length b)) by lia.
    by destruct (codes_loop (length b) b).
  - destruct f as [|f]; [simpl in Hf; lia|]. simpl in Hf.
    assert (Hc : (c =? 123) = false) by (apply Z.eqb_neq; intros ->; apply Ha; by left).
    cbn [app codes_loop]. rewrite Hc.
    rewrite IH by (try (intros H; apply Ha; by right); lia).
    by destruct (codes_loop (length b) b).
Qed.

Lemma scan_nobrace_app a : forall b f,
  ~ In 123 a -> (length (a ++ b) <= f)%nat ->
  scan f (a ++ b) = map Lit a ++ scan (length b) b.
Proof.
  induction a as [|c a IH]; intros b f Ha Hf.
  - simpl in *. by apply scan_fuel.
  - destruct f as [|f]; [simpl in Hf; lia|]. simpl in Hf.
    assert (Hc : c <> 123) by (intros ->; apply Ha; by left).
    cbn [app scan]. rewrite pattern_match_not_brace by done.
    rewrite IH by (try (intros H; apply Ha; by right); lia). done.
Qed.

Definition lower_upper_table : bool :=
  forallb (fun c => bool_decide (py_upper_char (py_lower c) = py_upper_char c)) (seqZ 0 128).

Lemma lower_upper_table_ok : lower_upper_table = true.
Proof. vm_compute. reflexivity. Qed.

Lemma py_upper_lower_ascii t : is_ascii t -> py_upper (map py_lower t) = py_upper t.
Proof.
  induction 1 as [|c t Hc _ IH]; [done|].
  unfold py_upper in *. simpl. rewrite IH. f_equal.
  pose proof lower_upper_table_ok as T. unfold lower_upper_table in T.
  rewrite forallb_forall in T. specialize (T c).
  rewrite bool_decide_eq_true in T. apply T.
  apply list_elem_of_In, elem_of_seqZ. lia.
Qed.

(** [CODE_TO_CHAR] inverts [CHAR_CODES]: no two characters share a code,
    so every mapped character is recovered from its code, and the
    character [CODE_TO_CHAR] gives for a code encodes back to that code. *)
Theorem CODE_TO_CHAR_round_trip :
  Forall (fun '(c, v) => dict_get v CODE_TO_CHAR = Some c /\ text_to_codes [c] = Some [v])
    CHAR_CODES /\
  Forall (fun '(v, c) => dict_get c CHAR_CODES = Some v) CODE_TO_CHAR /\
  length CODE_TO_CHAR = length CHAR_CODES.
Proof. vm_compute. repeat constructor. Qed.

(** Every code [text_to_codes] emits is a value of [CHAR_CODES] (0 for an
    unmapped character) or of [SPECIAL_CODES], hence lies in 0..71; and it
    emits at most one code per character of the upper-cased text. *)
Theorem text_to_codes_code_range (text : pystr) (cs : list Z) :
  text_to_codes text = Some cs ->
  Forall (fun v => In v (map snd CHAR_CODES) \/ In v (map snd SPECIAL_CODES)) cs /\
  Forall (fun v => 0 <= v <= 71) cs /\
  (length cs <= length (py_upper text))%nat.
Proof.
  intros H. apply codes_loop_valid in H as [Hv Hl].
  split; [done|]. split; [|done].
  eapply Forall_impl; [exact Hv|]. intros v [Hin|Hin]; simpl in Hin; lia.
Qed.

Lemma text_to_codes_code_range_witness :
  text_to_codes (s2l "{red}Hi~") = Some [63; 8; 9; 0] /\
  Forall (fun v => In v (map snd CHAR_CODES) \/ In v (map snd SPECIAL_CODES)) [63; 8; 9; 0] /\
  Forall (fun v => 0 <= v <= 71) [63; 8; 9; 0] /\
  (length [63; 8; 9; 0] <= length (py_upper (s2l "{red}Hi~")))%nat.
Proof.
  split; [reflexivity|]. apply text_to_codes_code_range. reflexivity.
Defined.

(** A prefix without ['{'] is encoded character by character after
    upper-casing, independently of what follows it. *)
Theorem text_to_codes_brace_free_prefix (a b : pystr) :
  ~ In 123 a ->
  text_to_codes (a ++ b) = (fun cs => map char_code (py_upper a) ++ cs) <$> text_to_codes b.
Proof.
  intros Ha. unfold text_to_codes. rewrite py_upper_app.
  apply codes_loop_nobrace_app; [by apply py_upper_no_brace|lia].
Qed.

Lemma text_to_codes_brace_free_prefix_witness :
  ~ In 123 (s2l "Hi ") /\
  text_to_codes (s2l "Hi " ++ s2l "{RED}") =
  (fun cs => map char_code (py_upper (s2l "Hi ")) ++ cs) <$> text_to_codes (s2l "{RED}").
Proof.
  assert (H : ~ In 123 (s2l "Hi ")) by (simpl; lia).
  split; [exact H|]. exact (text_to_codes_brace_free_prefix (s2l "Hi ") (s2l "{RED}") H).
Defined.

(** A prefix without ['{'] counts one cell per character in
    [get_display_length]. *)
Theorem get_display_length_brace_free_prefix (a b : pystr) :
  ~ In 123 a -> get_display_length (a ++ b) = (length a + get_display_length b)%nat.
Proof.
  intros Ha. rewrite !display_length_scan.
  rewrite scan_nobrace_app by (done || lia).
  by rewrite length_app, length_map.
Qed.

Lemma get_display_length_brace_free_prefix_witness :
  ~ In 123 (s2l "AB ") /\
  get_display_length (s2l "AB " ++ s2l "{RED}") = (length (s2l "AB ") + get_display_length (s2l "{RED}"))%nat.
Proof.
  assert (H : ~ In 123 (s2l "AB ")) by (simpl; lia).
  split; [exact H|]. exact (get_display_length_brace_free_prefix (s2l "AB ") (s2l "{RED}") H).
Defined.

(** The display length of words joined by single spaces is the sum of
    their display lengths plus one cell per separator. *)
Theorem get_display_length_join_space (ws : list pystr) :
  get_display_length (join_space ws) =
  (sum_list_with get_display_length ws + (length ws - 1))%nat.
Proof.
  induction ws as [|w [|w' ws] IH]; [done|simpl; lia|].
  change (join_space (w :: w' :: ws)) with (w ++ 32 :: join_space (w' :: ws)).
  rewrite display_length_space, IH. simpl. lia.
Qed.

(** For ASCII text, [text_to_codes] does not depend on letter case:
    encoding [text.lower()] gives the same codes as encoding [text]. *)
Theorem text_to_codes_ascii_lower (text : pystr) :
  is_ascii text -> text_to_codes (map py_lower text) = text_to_codes text.
Proof. intros H. unfold text_to_codes. by rewrite py_upper_lower_ascii. Qed.

Lemma text_to_codes_ascii_lower_witness :
  is_ascii (s2l "Hi {Red}") /\
  text_to_codes (map py_lower (s2l "Hi {Red}")) = text_to_codes (s2l "Hi {Red}").
Proof.
  assert (H : is_ascii (s2l "Hi {Red}")) by (repeat constructor; lia).
  split; [exact H|]. exact (text_to_codes_ascii_lower _ H).
Defined.

(** * Further properties of board rendering *)

Lemma create_rows_after ls : forall row center b b' j,
  create_rows row ls center b = Some b' -> (row + length ls <= j)%nat -> b' !! j = b !! j.
Proof.
  induction ls as [|line ls IH]; intros row center b b' j H Hj; simpl in H.
  - by injection H as <-.
  - destruct (text_to_codes line); [|discriminate].
    simpl in Hj. rewrite (IH _ _ _ _ _ H) by lia.
    rewrite place_codes_alter, list_lookup_alter_ne by lia. done.
Qed.

Lemma create_board_rows lines center b :
  create_board lines center = Some b -> (length lines <= ROWS)%nat ->
  (forall k line codes, lines !! k = Some line -> text_to_codes line = Some codes ->
     b !! k = Some (expected_row center codes)) /\
  (forall r, (length lines <= r < ROWS)%nat -> b !! r = Some (replicate COLS 0)).
Proof.
  intros H Hl. unfold create_board in H. rewrite take_ge in H by done. split.
  - intros k line codes Hk Hc. change k with (0 + k)%nat.
    eapply create_rows_rows; [exact H| |exact Hk|exact Hc].
    intros j Hj. apply lookup_replicate_2. unfold ROWS in *. lia.
  - intros r Hr. rewrite (create_rows_after _ _ _ _ _ _ H) by lia.
    apply lookup_replicate_2. unfold ROWS in *. lia.
Qed.

(** [create_board] leaves blank every row below the lines it is given. *)
Theorem create_board_blank_rows (lines : list pystr) (center : bool) (b : board) (r : nat) :
  create_board lines center = Some b -> (length lines <= r < ROWS)%nat ->
  b !! r = Some (replicate COLS 0).
Proof.
  intros H Hr. unfold create_board in H.
  rewrite (create_rows_after _ _ _ _ _ _ H).
  - apply lookup_replicate_2. unfold ROWS in *. lia.
  - rewrite length_take. lia.
Qed.

Lemma create_board_blank_rows_witness :
  create_board [s2l "HI"] true =
    Some ((replicate 10 0 ++ [8; 9] ++ replicate 10 0) :: replicate 5 (replicate 22 0)) /\
  (length [s2l "HI"] <= 3 < ROWS)%nat /\
  ((replicate 10 0 ++ [8; 9] ++ replicate 10 0) :: replicate 5 (replicate 22 0)) !! 3%nat
    = Some (replicate COLS 0).
Proof.
  assert (H : create_board [s2l "HI"] true =
    Some ((replicate 10 0 ++ [8; 9] ++ replicate 10 0) :: replicate 5 (replicate 22 0)))
    by reflexivity.
  assert (Hr : (length [s2l "HI"] <= 3 < ROWS)%nat) by (simpl; unfold ROWS; lia).
  split; [exact H|]. split; [exact Hr|].
  exact (create_board_blank_rows _ _ _ 3 H Hr).
Defined.

(** [format_message] puts the first six wrapped lines on consecutive rows,
    each laid out as [create_board] lays out a line; when centring, they
    start below [(6 - n) / 2] blank rows ([n] lines), otherwise at the
    top; every other row is blank. *)
Theorem format_message_rows (text : pystr) (center : bool) (b : board) :
  format_message text center = Some b ->
  let ls := take ROWS (wrap_text text (Z.of_nat COLS)) in
  let pad := if center then ((ROWS - length ls) / 2)%nat else 0%nat in
  (forall r, (r < pad)%nat -> b !! r = Some (replicate COLS 0)) /\
  (forall k line codes, ls !! k = Some line -> text_to_codes line = Some codes ->
     b !! (pad + k)%nat = Some (expected_row center codes)) /\
  (forall r, (pad + length ls <= r < ROWS)%nat -> b !! r = Some (replicate COLS 0)).
Proof.
  intros H ls pad.
  assert (Hls : (length ls <= ROWS)%nat) by (unfold ls; rewrite length_take; lia).
  unfold format_message in H. fold ls in H.
  assert (E : exists lines', create_board lines' center = Some b /\
            lines' = replicate pad [] ++ ls).
  { destruct center; simpl in H.
    - case_bool_decide as Hlt.
      + eexists. split; [exact H|]. done.
      + eexists. split; [exact H|]. unfold pad.
        replace (ROWS - length ls)%nat with 0%nat by lia. done.
    - eexists. split; [exact H|]. done. }
  destruct E as (lines' & Hb & ->).
  assert (Hpad : (pad + length ls <= ROWS)%nat).
  { unfold pad. destruct center; [|lia].
    pose proof (Nat.Div0.div_le_upper_bound (ROWS - length ls) 2 (ROWS - length ls)). lia. }
  destruct (create_board_rows _ _ _ Hb) as [Hrows Hblank].
  { rewrite length_app, length_replicate. done. }
  split; [|split].
  - intros r Hr. rewrite (Hrows r [] []).
    + destruct center; reflexivity.
    + rewrite lookup_app_l by (rewrite length_replicate; done).
      by apply lookup_replicate_2.
    + reflexivity.
  - intros k line codes Hk Hc. apply (Hrows _ line); [|done].
    rewrite lookup_app_r by (rewrite length_replicate; lia).
    rewrite length_replicate. by replace (pad + k - pad)%nat with k by lia.
  - intros r Hr. apply Hblank. rewrite length_app, length_replicate. exact Hr.
Qed.

Lemma format_message_rows_witness :
  format_message (s2l "HI") true =
    Some (replicate 2 (replicate 22 0) ++
          (replicate 10 0 ++ [8; 9] ++ replicate 10 0) :: replicate 3 (replicate 22 0)) /\
  (let b := replicate 2 (replicate 22 0) ++
            (replicate 10 0 ++ [8; 9] ++ replicate 10 0) :: replicate 3 (replicate 22 0) in
   let ls := take ROWS (wrap_text (s2l "HI") (Z.of_nat COLS)) in
   let pad := ((ROWS - length ls) / 2)%nat in
   (forall r, (r < pad)%nat -> b !! r = Some (replicate COLS 0)) /\
   (forall k line codes, ls !! k = Some line -> text_to_codes line = Some codes ->
      b !! (pad + k)%nat = Some (expected_row true codes)) /\
   (forall r, (pad + length ls <= r < ROWS)%nat -> b !! r = Some (replicate COLS 0))).
Proof.
  assert (H : format_message (s2l "HI") true =
    Some (replicate 2 (replicate 22 0) ++
          (replicate 10 0 ++ [8; 9] ++ replicate 10 0) :: replicate 3 (replicate 22 0)))
    by reflexivity.
  split; [exact H|]. exact (format_message_rows _ true _ H).
Defined.

(** * Display client *)

Lemma client_send_board_shape post b :
  board_shape b -> client_send_board post b = inr (post b).
Proof.
  intros [Hl Hf]. unfold client_send_board. rewrite Hl, Nat.eqb_refl. simpl.
  replace (existsb _ b) with false; [done|]. symmetry.
  apply not_true_iff_false. rewrite existsb_exists. intros (row & Hin & Hrow).
  rewrite List.Forall_forall in Hf. rewrite (Hf row Hin), Nat.eqb_refl in Hrow. done.
Qed.

(** [send_board] posts exactly the 6x22 boards; on any other board it
    raises [ValueError] and posts nothing. *)
Theorem client_send_board_validation (post : board -> bool) (b : board) :
  (length b = ROWS /\ Forall (fun r => length r = COLS) b ->
     client_send_board post b = inr (post b)) /\
  (~ (length b = ROWS /\ Forall (fun r => length r = COLS) b) ->
     exists msg, client_send_board post b = inl (ValueError msg)).
Proof.
  split; [apply client_send_board_shape|].
  intros Hn. unfold client_send_board.
  destruct (length b =? ROWS)%nat eqn:El; simpl; [|by eexists].
  destruct (existsb _ b) eqn:Ee; [by eexists|].
  exfalso. apply Hn. split; [by apply Nat.eqb_eq|].
  apply List.Forall_forall. intros row Hin.
  apply not_true_iff_false in Ee. destruct (Nat.eq_dec (length row) COLS) as [|Hne]; [done|].
  exfalso. apply Ee, existsb_exists. exists row. split; [done|].
  apply negb_true_iff, Nat.eqb_neq. done.
Qed.

(** The board check of [send_board] never rejects what [send_message],
    [send_lines] and [clear] build: each posts the rendered board, and
    the only error that can escape them is the codec's [KeyError]. *)
Theorem client_sends_rendered_board :
  (forall post text center,
     client_send_message post text center =
     match format_message text center with None => inl KeyError | Some b => inr (post b) end) /\
  (forall post ls center,
     client_send_lines post ls center =
     match create_board ls center with None => inl KeyError | Some b => inr (post b) end) /\
  (forall post, client_clear post = inr (post (replicate ROWS (replicate COLS 0)))).
Proof.
  split; [|split].
  - intros post text center. unfold client_send_message.
    destruct (format_message text center) as [b|] eqn:E; [|done].
    by apply client_send_board_shape, (format_message_shape text center).
  - intros post ls center. unfold client_send_lines.
    destruct (create_board ls center) as [b|] eqn:E; [|done].
    by apply client_send_board_shape, (create_board_shape ls center).
  - intros post. apply client_send_board_shape, empty_board_shape.
Qed.

(** * Board formatters *)

Lemma length_py_upper_ascii s : is_ascii s -> length (py_upper s) = length s.
Proof. intros H. rewrite py_upper_ascii_map by done. apply length_map. Qed.

Lemma is_ascii_take n s : is_ascii s -> is_ascii (take n s).
Proof. intros H. rewrite <- (take_drop n s) in H. by apply is_ascii_app in H as [? _]. Qed.

(** A countdown line for an ASCII name is exactly 22 characters: the
    upper-cased name cut to leave room for the day count, at least one
    space, then the day count flush right. *)
Theorem countdown_line_layout (name : pystr) (days : Z) :
  is_ascii name -> (length (countdown_day_str days) <= 21)%nat ->
  length (countdown_line name days) = 22%nat /\
  exists k, (1 <= k)%nat /\
    countdown_line name days =
    py_upper (take (21 - length (countdown_day_str days)) name) ++
    replicate k 32 ++ countdown_day_str days.
Proof.
  intros Ha Hd. unfold countdown_line, py_slice_to.
  set (ds := countdown_day_str days) in *.
  rewrite (proj2 (Z.leb_le 0 _)) by lia.
  replace (Z.to_nat (22 - Z.of_nat (length ds) - 1)) with (21 - length ds)%nat by lia.
  rewrite length_py_upper_ascii by (by apply is_ascii_take).
  rewrite length_take.
  split.
  - rewrite !length_app, length_py_upper_ascii by (by apply is_ascii_take).
    rewrite length_take, length_replicate. lia.
  - eexists. split; [|reflexivity]. lia.
Qed.

Lemma countdown_line_layout_witness :
  is_ascii (s2l "Trip to Paris and London") /\
  (length (countdown_day_str 12) <= 21)%nat /\
  length (countdown_line (s2l "Trip to Paris and London") 12) = 22%nat /\
  exists k, (1 <= k)%nat /\
    countdown_line (s2l "Trip to Paris and London") 12 =
    py_upper (take (21 - length (countdown_day_str 12)) (s2l "Trip to Paris and London")) ++
    replicate k 32 ++ countdown_day_str 12.
Proof.
  assert (Ha : is_ascii (s2l "Trip to Paris and London")) by (repeat constructor; lia).
  assert (Hd : (length (countdown_day_str 12) <= 21)%nat) by (vm_compute; lia).
  split; [exact Ha|]. split; [exact Hd|].
  exact (countdown_line_layout _ 12 Ha Hd).
Defined.

(** The countdown board has at most six lines, and when every name is
    ASCII and every day count leaves room, no line exceeds 22 cells. *)
Theorem countdown_format_for_board_fits (countdowns : list (pystr * Z)) :
  Forall (fun '(name, days) => is_ascii name /\ (length (countdown_day_str days) <= 21)%nat)
    countdowns ->
  (length (countdown_format_for_board countdowns) <= 6)%nat /\
  Forall (fun l => (length l <= 22)%nat) (countdown_format_for_board countdowns).
Proof.
  intros H. destruct countdowns as [|c cs]; [split; [simpl; lia|repeat constructor; simpl; lia]|].
  unfold countdown_format_for_board. split.
  - cbn [length]. rewrite length_map, length_take. lia.
  - constructor; [simpl; lia|]. constructor; [simpl; lia|].
    apply List.Forall_forall. intros l Hl. apply in_map_iff in Hl as ([name days] & <- & Hin).
    assert (Hin' : In (name, days) (c :: cs)).
    { rewrite <- (take_drop 4 (c :: cs)). apply in_or_app. by left. }
    rewrite List.Forall_forall in H.
    destruct (H _ Hin') as [Ha Hd].
    destruct (countdown_line_layout name days Ha Hd) as [-> _]. lia.
Qed.

Lemma countdown_format_for_board_fits_witness :
  Forall (fun '(name, days) => is_ascii name /\ (length (countdown_day_str days) <= 21)%nat)
    [(s2l "Trip", 12%Z); (s2l "Party", 0%Z)] /\
  (length (countdown_format_for_board [(s2l "Trip", 12%Z); (s2l "Party", 0%Z)]) <= 6)%nat /\
  Forall (fun l => (length l <= 22)%nat)
    (countdown_format_for_board [(s2l "Trip", 12%Z); (s2l "Party", 0%Z)]).
Proof.
  assert (H : Forall (fun '(name, days) => is_ascii name /\ (length (countdown_day_str days) <= 21)%nat)
    [(s2l "Trip", 12%Z); (s2l "Party", 0%Z)]).
  { repeat constructor; try lia; vm_compute; lia. }
  split; [exact H|]. exact (countdown_format_for_board_fits _ H).
Defined.

(** The news board is the header [NEWS], a blank line, and at most four
    lines of the wrapped, upper-cased headline: those lines are groups of
    the headline's leading words, unaltered and in order. *)
Theorem news_format_for_board_words (title : pystr) :
  (length (news_format_for_board title) <= 6)%nat /\
  take 2 (news_format_for_board title) = [s2l "NEWS"; []] /\
  exists groups rest,
    drop 2 (news_format_for_board title) = map join_space groups /\
    (length groups <= 4)%nat /\
    concat groups ++ rest = py_split (py_upper title).
Proof.
  destruct (wrap_text_groups (py_upper title) 22) as (groups & Hw & Hc & _).
  unfold news_format_for_board. rewrite Hw. split; [|split].
  - cbn [length]. rewrite length_take. lia.
  - reflexivity.
  - exists (take 4 groups), (concat (drop 4 groups)). cbn [drop]. split.
    + by rewrite <- fmap_take.
    + split; [rewrite length_take; lia|].
      by rewrite <- concat_app, take_drop.
Qed.

(** * Further properties of the scheduler and its storage *)

(** A trigger of an unknown [message_type] is logged with empty content
    and [success = False], without calling any provider or the display,
    and its [last_run] is left alone. *)
Theorem execute_message_unknown_type sm sl po pl (now : Z) (st : Storage)
    (msg : ScheduledMessage) :
  ~ In (message_type msg)
      ["text"; "weather"; "stocks"; "news"; "calendar"; "countdowns"; "flights"]%string ->
  execute_message sm sl po pl now st msg =
  (log_message st (message_type msg) EmptyString false, false).
Proof.
  intros H. unfold execute_message, execute_body. cbv zeta.
  repeat match goal with
  | |- context [String.eqb (message_type msg) ?s] =>
      let E := fresh "E" in
      destruct (String.eqb (message_type msg) s) eqn:E;
      [apply String.eqb_eq in E; exfalso; apply H; rewrite E; simpl; tauto|]
  end.
  reflexivity.
Qed.

Lemma execute_message_unknown_type_witness :
  ~ In (message_type (demo_trigger 9 "sms" "hi" "* * * * *"))
      ["text"; "weather"; "stocks"; "news"; "calendar"; "countdowns"; "flights"]%string /\
  execute_message demo_send_message demo_send_lines demo_provider_optional demo_provider_lines
    0 demo_storage (demo_trigger 9 "sms" "hi" "* * * * *") =
  (log_message demo_storage "sms" EmptyString false, false).
Proof.
  assert (H : ~ In (message_type (demo_trigger 9 "sms" "hi" "* * * * *"))
      ["text"; "weather"; "stocks"; "news"; "calendar"; "countdowns"; "flights"]%string).
  { simpl. intros Hin. repeat destruct Hin as [Hin|Hin]; try discriminate; done. }
  split; [exact H|].
  exact (execute_message_unknown_type demo_send_message demo_send_lines demo_provider_optional
           demo_provider_lines 0 demo_storage _ H).
Defined.

(** The columns of a trigger other than [last_run]. *)
Definition trigger_fields (m : ScheduledMessage) :=
  (msg_id m, msg_name m, message_type m, content m, cron_expression m, enabled m).

Lemma update_last_run_fields st id t :
  map trigger_fields (scheduled_messages (update_last_run st id t)) =
  map trigger_fields (scheduled_messages st).
Proof.
  simpl. rewrite map_map. apply map_ext. intros m. by destruct (decide (msg_id m = id)).
Qed.

Lemma execute_message_effect sm sl po pl t s m :
  length (message_log (fst (execute_message sm sl po pl t s m))) = S (length (message_log s)) /\
  map trigger_fields (scheduled_messages (fst (execute_message sm sl po pl t s m))) =
  map trigger_fields (scheduled_messages s).
Proof.
  unfold execute_message.
  destruct (execute_body sm sl po pl m) as [[c b]|e]; [destruct b|]; simpl;
    rewrite length_app; simpl; (split; [lia|]); try done.
  apply (update_last_run_fields (log_message s (message_type m) c true)).
Qed.

Lemma pass_fold_effect sm sl po pl cn now updated ms : forall s,
  let s' := fold_left (fun s m => if is_due cn now m
                                  then fst (execute_message sm sl po pl updated s m) else s) ms s in
  length (message_log s') = (length (message_log s) + length (List.filter (is_due cn now) ms))%nat /\
  map trigger_fields (scheduled_messages s') = map trigger_fields (scheduled_messages s).
Proof.
  induction ms as [|m ms IH]; intros s; simpl; [split; [lia|done]|].
  destruct (is_due cn now m); simpl.
  - destruct (IH (fst (execute_message sm sl po pl updated s m))) as [H1 H2].
    destruct (execute_message_effect sm sl po pl updated s m) as [E1 E2].
    split; [rewrite H1, E1; lia|]. by rewrite H2, E2.
  - exact (IH s).
Qed.

(** A pass appends one [message_log] record per enabled trigger found due
    and none for the others, and changes nothing in the triggers but
    their [last_run]. *)
Theorem check_and_run_scheduled_accounting sm sl po pl cn (now updated : Z) (st : Storage) :
  let st' := fst (check_and_run_scheduled sm sl po pl cn now updated st) in
  length (message_log st') =
    (length (message_log st) +
     length (List.filter (is_due cn now) (get_scheduled_messages_enabled st)))%nat /\
  map trigger_fields (scheduled_messages st') = map trigger_fields (scheduled_messages st).
Proof. rewrite pass_eq. apply pass_fold_effect. Qed.

(** [set_setting] then [get_setting] returns the value set; other keys
    are unaffected. *)
Theorem settings_round_trip (settings : gmap string string) (key value : string)
    (default : option string) :
  get_setting (set_setting settings key value) key default = Some value /\
  forall key' default', key' <> key ->
    get_setting (set_setting settings key value) key' default' = get_setting settings key' default'.
Proof.
  unfold get_setting, set_setting. split.
  - by rewrite lookup_insert_eq.
  - intros key' default' Hne. by rewrite lookup_insert_ne by congruence.
Qed.

Lemma find_map_same_key (f : ScheduledMessage -> ScheduledMessage) id l :
  (forall m, msg_id (f m) = msg_id m) ->
  List.find (fun m => Nat.eqb (msg_id m) id) (map f l) =
  f <$> List.find (fun m => Nat.eqb (msg_id m) id) l.
Proof.
  intros Hf. induction l as [|m l IH]; [done|]. simpl. rewrite Hf.
  by destruct (Nat.eqb (msg_id m) id).
Qed.

Lemma max_id_bound l m :
  In m l -> (msg_id m <= fold_right Nat.max 0 (map msg_id l))%nat.
Proof.
  induction l as [|x l IH]; [done|]. intros [->|Hin]; simpl; [lia|].
  specialize (IH Hin). lia.
Qed.

Lemma length_insert_by_name row l : length (insert_by_name row l) = S (length l).
Proof.
  induction l as [|m l IH]; [done|]. simpl.
  destruct (String.ltb (msg_name row) (msg_name m)); simpl; [done|]. by rewrite IH.
Qed.

Lemma find_insert_by_name_other row l id :
  Nat.eqb (msg_id row) id = false ->
  List.find (fun m => Nat.eqb (msg_id m) id) (insert_by_name row l) =
  List.find (fun m => Nat.eqb (msg_id m) id) l.
Proof.
  intros Hr. induction l as [|m l IH]; simpl; [by rewrite Hr|].
  destruct (String.ltb (msg_name row) (msg_name m)); simpl; [by rewrite Hr|].
  by rewrite IH.
Qed.

Lemma find_insert_by_name_fresh row l :
  (forall m, In m l -> msg_id m <> msg_id row) ->
  List.find (fun m => Nat.eqb (msg_id m) (msg_id row)) (insert_by_name row l) = Some row.
Proof.
  intros Hl. induction l as [|m l IH]; simpl; [by rewrite Nat.eqb_refl|].
  destruct (String.ltb (msg_name row) (msg_name m)); simpl; [by rewrite Nat.eqb_refl|].
  replace (Nat.eqb (msg_id m) (msg_id row)) with false
    by (symmetry; apply Nat.eqb_neq, Hl; by left).
  apply IH. intros m' Hm'. apply Hl. by right.
Qed.

(** Saving a trigger that has an id updates its editable columns in place:
    its id and its [last_run] are kept, and no other trigger changes.
    When no row has that id, nothing changes. *)
Theorem save_scheduled_message_update (st : Storage) (msg : ScheduledMessage) :
  msg_id msg <> 0%nat ->
  let '(st', r) := save_scheduled_message st msg in
  r = msg_id msg /\ message_log st' = message_log st /\
  get_scheduled_message st' (msg_id msg) =
    (fun old => {| msg_id := msg_id old; msg_name := msg_name msg;
                   message_type := message_type msg; content := content msg;
                   cron_expression := cron_expression msg; enabled := enabled msg;
                   last_run := last_run old |}) <$> get_scheduled_message st (msg_id msg) /\
  (forall id, id <> msg_id msg -> get_scheduled_message st' id = get_scheduled_message st id).
Proof.
  intros H. unfold save_scheduled_message.
  replace (Nat.eqb (msg_id msg) 0) with false by (symmetry; by apply Nat.eqb_neq).
  split; [done|]. split; [done|]. unfold get_scheduled_message. cbn [scheduled_messages].
  split.
  - induction (scheduled_messages st) as [|m l IH]; [done|]. simpl.
    destruct (Nat.eqb (msg_id m) (msg_id msg)) eqn:E; simpl; rewrite E; [done|]. exact IH.
  - intros id Hid. induction (scheduled_messages st) as [|m l IH]; [done|]. simpl.
    destruct (Nat.eqb (msg_id m) (msg_id msg)) eqn:E; simpl.
    + apply Nat.eqb_eq in E. replace (Nat.eqb (msg_id m) id) with false
        by (symmetry; apply Nat.eqb_neq; lia). exact IH.
    + destruct (Nat.eqb (msg_id m) id); [done|]. exact IH.
Qed.

Lemma save_scheduled_message_update_witness :
  msg_id (demo_trigger 4 "text" "BYE" "0 7 * * *") <> 0%nat /\
  let '(st', r) := save_scheduled_message
                     (fst (check_and_run_scheduled demo_send_message demo_send_lines
                             demo_provider_optional demo_provider_lines demo_cron
                             (epoch_sentinel + 100) (epoch_sentinel + 100) demo_storage))
                     (demo_trigger 4 "text" "BYE" "0 7 * * *") in
  r = 4%nat /\ message_log st' = message_log (fst (check_and_run_scheduled demo_send_message
        demo_send_lines demo_provider_optional demo_provider_lines demo_cron
        (epoch_sentinel + 100) (epoch_sentinel + 100) demo_storage)) /\
  get_scheduled_message st' 4 =
    (fun old => {| msg_id := msg_id old; msg_name := "text"; message_type := "text";
                   content := Some "BYE"; cron_expression := "0 7 * * *"; enabled := true;
                   last_run := last_run old |}) <$>
    get_scheduled_message (fst (check_and_run_scheduled demo_send_message demo_send_lines
        demo_provider_optional demo_provider_lines demo_cron
        (epoch_sentinel + 100) (epoch_sentinel + 100) demo_storage)) 4 /\
  (forall id, id <> 4%nat -> get_scheduled_message st' id =
     get_scheduled_message (fst (check_and_run_scheduled demo_send_message demo_send_lines
        demo_provider_optional demo_provider_lines demo_cron
        (epoch_sentinel + 100) (epoch_sentinel + 100) demo_storage)) id).
Proof.
  assert (H : msg_id (demo_trigger 4 "text" "BYE" "0 7 * * *") <> 0%nat) by discriminate.
  split; [exact H|]. exact (save_scheduled_message_update _ _ H).
Defined.

(** Saving a trigger without an id inserts a row under a fresh, non-zero
    id that [get_scheduled_message] then finds, with [last_run] unset;
    no other trigger changes. *)
Theorem save_scheduled_message_insert (st : Storage) (msg : ScheduledMessage) :
  msg_id msg = 0%nat ->
  let '(st', r) := save_scheduled_message st msg in
  r <> 0%nat /\ ~ In r (map msg_id (scheduled_messages st)) /\
  length (scheduled_messages st') = S (length (scheduled_messages st)) /\
  message_log st' = message_log st /\
  get_scheduled_message st' r =
    Some {| msg_id := r; msg_name := msg_name msg; message_type := message_type msg;
            content := content msg; cron_expression := cron_expression msg;
            enabled := enabled msg; last_run := None |} /\
  (forall id, id <> r -> get_scheduled_message st' id = get_scheduled_message st id).
Proof.
  intros H. unfold save_scheduled_message. rewrite H, Nat.eqb_refl.
  assert (Hfresh : forall m, In m (scheduled_messages st) -> msg_id m <> next_rowid st).
  { intros m Hm. pose proof (max_id_bound _ _ Hm). unfold next_rowid. lia. }
  split; [unfold next_rowid; lia|]. split.
  { intros Hin. apply in_map_iff in Hin as (m & Hm & Hin). by apply (Hfresh m). }
  split; [apply length_insert_by_name|]. split; [done|].
  unfold get_scheduled_message. cbn [scheduled_messages]. split.
  - by apply (find_insert_by_name_fresh
                {| msg_id := next_rowid st; msg_name := msg_name msg;
                   message_type := message_type msg; content := content msg;
                   cron_expression := cron_expression msg; enabled := enabled msg;
                   last_run := None |}).
  - intros id Hid. apply find_insert_by_name_other. cbn [msg_id]. apply Nat.eqb_neq. lia.
Qed.

Lemma save_scheduled_message_insert_witness :
  msg_id (demo_trigger 0 "text" "NEW" "0 9 * * *") = 0%nat /\
  let '(st', r) := save_scheduled_message demo_storage (demo_trigger 0 "text" "NEW" "0 9 * * *") in
  r <> 0%nat /\ ~ In r (map msg_id (scheduled_messages demo_storage)) /\
  length (scheduled_messages st') = S (length (scheduled_messages demo_storage)) /\
  message_log st' = message_log demo_storage /\
  get_scheduled_message st' r =
    Some {| msg_id := r; msg_name := "text"; message_type := "text";
            content := Some "NEW"; cron_expression := "0 9 * * *";
            enabled := true; last_run := None |} /\
  (forall id, id <> r -> get_scheduled_message st' id = get_scheduled_message demo_storage id).
Proof.
  assert (H : msg_id (demo_trigger 0 "text" "NEW" "0 9 * * *") = 0%nat) by reflexivity.
  split; [exact H|]. exact (save_scheduled_message_insert _ _ H).
Defined.

(** [delete_scheduled_message] reports whether a row had the id; after it
    no row has the id, and lookups of other ids are unchanged. *)
Theorem delete_scheduled_message_spec (st : Storage) (id : nat) :
  let '(st', deleted) := delete_scheduled_message st id in
  (deleted = true <-> get_scheduled_message st id <> None) /\
  get_scheduled_message st' id = None /\
  message_log st' = message_log st /\
  (forall id', id' <> id -> get_scheduled_message st' id' = get_scheduled_message st id').
Proof.
  unfold delete_scheduled_message, get_scheduled_message. cbn [scheduled_messages message_log].
  split; [|split; [|split; [done|]]].
  - induction (scheduled_messages st) as [|m l IH]; simpl; [done|].
    destruct (Nat.eqb (msg_id m) id); simpl; [done|]. exact IH.
  - induction (scheduled_messages st) as [|m l IH]; simpl; [done|].
    destruct (Nat.eqb (msg_id m) id) eqn:E; simpl; [exact IH|]. rewrite E. exact IH.
  - intros id' Hne. induction (scheduled_messages st) as [|m l IH]; simpl; [done|].
    destruct (Nat.eqb (msg_id m) id) eqn:E; simpl.
    + apply Nat.eqb_eq in E. replace (Nat.eqb (msg_id m) id') with false
        by (symmetry; apply Nat.eqb_neq; lia). exact IH.
    + destruct (Nat.eqb (msg_id m) id'); [done|]. exact IH.
Qed.

(** [add_default_schedules] only acts on an empty table, where it adds the
    five defaults (four of them enabled, listed in name order), so calling
    it again changes nothing. *)
Theorem add_default_schedules_idempotent (st : Storage) :
  add_default_schedules (add_default_schedules st) = add_default_schedules st /\
  (scheduled_messages st <> [] -> add_default_schedules st = st) /\
  (scheduled_messages st = [] ->
     map msg_name (scheduled_messages (add_default_schedules st)) =
       ["Daily Calendar"; "Good Morning"; "Good Night"; "Market Open"; "Morning Weather"]%string /\
     length (get_scheduled_messages_enabled (add_default_schedules st)) = 4%nat /\
     message_log (add_default_schedules st) = message_log st).
Proof.
  destruct st as [[|m ms] log]; cbn [scheduled_messages message_log].
  - split; [reflexivity|]. split; [done|]. intros _. split; [reflexivity|]. split; reflexivity.
  - split; [reflexivity|]. split; [done|]. discriminate.
Qed.
